(** * brightspot-js-cookie: the cookie value codec and the scramble plug-ins

    A shallow embedding of [src/cookie.js].  JavaScript strings are sequences
    of UTF-16 code units and are modelled as [list Z]; a call that can throw
    returns a [result].  The platform functions the module relies on
    ([String.prototype.replace], [encodeURIComponent], [decodeURIComponent],
    property lookup on a plain object) are written out after ECMA-262. *)

From Stdlib Require Import ZArith List Lia Bool Ascii.
From stdpp Require Import base option list strings gmap.

Local Open Scope Z_scope.

(** ** Strings, values and errors *)

(** A JavaScript string: its UTF-16 code units, each in [0, 65536). *)
Abbreviation jsstring := (list Z).

(** An ASCII string literal as code units. *)
Definition lit (s : string) : jsstring :=
  map (fun a => Z.of_N (N_of_ascii a)) (String.list_ascii_of_string s).

(** The values the module's [String] parameters can hold. *)
Inductive jsval :=
  | JUndefined
  | JNull
  | JString (s : jsstring).

(** What a call can throw: the two built-in error classes that occur here,
    and the string thrown by [cookie] itself. *)
Inductive error :=
  | URIError
  | TypeError
  | Thrown (msg : jsstring).

Inductive result (A : Type) :=
  | Ok (a : A)
  | Err (e : error).
Arguments Ok {A} a.
Arguments Err {A} e.

Notation "'do' x <- a ; b" :=
  (match a with Ok x => b | Err e => Err e end)
  (at level 10, x pattern, a at level 100, b at level 200).

(** [str || ''] for a string-or-absent argument. *)
Definition or_empty (v : jsval) : jsstring :=
  match v with
  | JString s => s
  | JUndefined | JNull => []
  end.

(** [String.fromCharCode(n)]: the argument is taken modulo 2^16. *)
Definition fromCharCode (n : Z) : jsstring := [n mod 65536].

(** [s.replace(/[class]/g, f)] for a one-character class: every code unit of
    the class is replaced by the text the callback returns for it. *)
Definition replace_class (cls : Z -> bool) (f : Z -> jsstring) (s : jsstring)
  : jsstring :=
  flat_map (fun c => if cls c then f c else [c]) s.

(** ** Text rotation primitives *)

(** [/[a-z]/i] without the [u] flag: canonicalisation never maps a code unit
    above 127 to one below 128, so exactly the ASCII letters match. *)
Definition is_ascii_letter (n : Z) : bool :=
  ((65 <=? n) && (n <=? 90)) || ((97 <=? n) && (n <=? 122)).

(** [/[0-9]/] *)
Definition is_ascii_digit (n : Z) : bool := (48 <=? n) && (n <=? 57).

(** The callback of [rot13]: [n > 109 || n < 97 && n > 77 ? n - 13 : n + 13]. *)
Definition rot13_char (n : Z) : jsstring :=
  fromCharCode (if (109 <? n) || ((n <? 97) && (77 <? n)) then n - 13 else n + 13).

Definition rot13 (str : jsval) : jsstring :=
  replace_class is_ascii_letter rot13_char (or_empty str).

(** The substitution matrix: property name (a one-digit string) to number. *)
Definition rot5matrix : list (jsstring * Z) :=
  [ (lit "0", 5); (lit "1", 6); (lit "2", 7); (lit "3", 8); (lit "4", 9);
    (lit "5", 0); (lit "6", 1); (lit "7", 2); (lit "8", 3); (lit "9", 4) ].

(** Own-property lookup in an object literal given as a list of pairs. *)
Fixpoint own_property {A} (k : jsstring) (o : list (jsstring * A)) : option A :=
  match o with
  | [] => None
  | (k', v) :: o' => if bool_decide (k = k') then Some v else own_property k o'
  end.

(** The text of a one-digit number, as [replace] inserts it. *)
Definition digit_to_string (n : Z) : jsstring := [48 + n].

(** [rot5matrix.hasOwnProperty(a) ? rot5matrix[a] : a] *)
Definition rot5replace (a : jsstring) : jsstring :=
  match own_property a rot5matrix with
  | Some n => digit_to_string n
  | None => a
  end.

(** [rot5] has no [|| ''] guard: on [null] or [undefined] the method call
    [str.replace] raises a TypeError. *)
Definition rot5 (str : jsval) : result jsstring :=
  match str with
  | JString s => Ok (replace_class is_ascii_digit (fun c => rot5replace [c]) s)
  | JUndefined | JNull => Err TypeError
  end.

(** What the two rotations do to a single code unit: letters move 13 places
    inside their alphabet, digits move 5 places, anything else stays. *)
Definition rot13_code (c : Z) : Z :=
  if is_ascii_letter c
  then (if ((65 <=? c) && (c <=? 77)) || ((97 <=? c) && (c <=? 109))
        then c + 13 else c - 13)
  else c.

Definition rot5_code (c : Z) : Z :=
  if is_ascii_digit c then (if c <=? 52 then c + 5 else c - 5) else c.

(** ** Prefix tag codec *)

(** The characters [.] does not match. *)
Definition is_line_terminator (c : Z) : bool :=
  (c =? 10) || (c =? 13) || (c =? 8232) || (c =? 8233).

Definition LBRACKET : Z := 91.
Definition RBRACKET : Z := 93.

(** The lazy part of [/^\[(.+?)\]/] once the first captured character has
    been taken: the capture [acc] grows one character at a time and stops at
    the first [']'] that follows it.  A line terminator or the end of the
    input before that [']'] makes the whole match fail (the shorter captures
    have all been tried already). *)
Fixpoint lazy_capture (acc s : jsstring) : option (jsstring * jsstring) :=
  match s with
  | [] => None
  | d :: s' =>
      if d =? RBRACKET then Some (acc, s')
      else if is_line_terminator d then None
      else lazy_capture (acc ++ [d]) s'
  end.

(** [s.match(/^\[(.+?)\]/)]: the capture and the text after the match.
    [.+?] takes at least one character, which may itself be [']']. *)
Definition match_prefix (s : jsstring) : option (jsstring * jsstring) :=
  match s with
  | b :: c :: s' =>
      if (b =? LBRACKET) && negb (is_line_terminator c)
      then lazy_capture [c] s'
      else None
  | _ => None
  end.

Definition scramblePrefixGet (s : jsstring) : jsstring :=
  match match_prefix s with
  | Some (m1, _) => match m1 with [] => [] | _ => m1 end
  | None => []
  end.

Definition scramblePrefixAdd (prefix value : jsstring) : jsstring :=
  lit "[" ++ prefix ++ lit "]" ++ value.

Definition scramblePrefixRemove (s : jsstring) : jsstring :=
  match match_prefix s with
  | Some (_, rest) => rest
  | None => s
  end.

(** ** Value transport codec *)

Definition PERCENT : Z := 37.

(** The characters [encodeURIComponent] leaves alone: letters, digits and
    the marks [- _ . ! ~ * ' ( )]. *)
Definition is_uri_unreserved (c : Z) : bool :=
  is_ascii_letter c || is_ascii_digit c || existsb (Z.eqb c) (lit "-_.!~*'()").

Definition is_lead_surrogate (c : Z) : bool := (0xD800 <=? c) && (c <=? 0xDBFF).
Definition is_trail_surrogate (c : Z) : bool := (0xDC00 <=? c) && (c <=? 0xDFFF).

(** The code point of a surrogate pair. *)
Definition pair_code_point (lead trail : Z) : Z :=
  (lead - 0xD800) * 1024 + (trail - 0xDC00) + 0x10000.

(** The UTF-8 octets of a code point (RFC 3629); the shifts and masks are
    written as divisions and remainders by powers of two. *)
Definition utf8_octets (cp : Z) : list Z :=
  if cp <? 0x80 then [cp]
  else if cp <? 0x800 then [0xC0 + cp / 64; 0x80 + cp mod 64]
  else if cp <? 0x10000 then
    [0xE0 + cp / 4096; 0x80 + (cp / 64) mod 64; 0x80 + cp mod 64]
  else
    [0xF0 + cp / 262144; 0x80 + (cp / 4096) mod 64;
     0x80 + (cp / 64) mod 64; 0x80 + cp mod 64].

(** An upper-case hexadecimal digit. *)
Definition hex_digit (d : Z) : Z := if d <? 10 then 48 + d else 55 + d.

(** ["%XX"] for one octet. *)
Definition percent_octet (b : Z) : jsstring :=
  [PERCENT; hex_digit (b / 16); hex_digit (b mod 16)].

Definition escape_code_point (cp : Z) : jsstring :=
  flat_map percent_octet (utf8_octets cp).

(** [encodeURIComponent] (ECMA-262, Encode with the unreserved set above).
    The input is read one code point at a time; an unpaired surrogate raises
    a URIError. *)
Fixpoint encodeURIComponent (s : jsstring) : result jsstring :=
  match s with
  | [] => Ok []
  | c :: t =>
      if is_trail_surrogate c then Err URIError
      else if is_lead_surrogate c then
        match t with
        | d :: t' =>
            if is_trail_surrogate d then
              do r <- encodeURIComponent t';
              Ok (escape_code_point (pair_code_point c d) ++ r)
            else Err URIError
        | [] => Err URIError
        end
      else if is_uri_unreserved c then
        do r <- encodeURIComponent t; Ok (c :: r)
      else
        do r <- encodeURIComponent t; Ok (escape_code_point c ++ r)
  end.

(** The value of a hexadecimal digit, either case. *)
Definition hex_value (c : Z) : option Z :=
  if is_ascii_digit c then Some (c - 48)
  else if (65 <=? c) && (c <=? 70) then Some (c - 55)
  else if (97 <=? c) && (c <=? 102) then Some (c - 87)
  else None.

(** One escape ["%XX"] at the head of [s]: its octet and the text after it.
    Too short an input, a missing [%] or a non-hexadecimal digit raise a
    URIError. *)
Definition read_escape (s : jsstring) : result (Z * jsstring) :=
  match s with
  | p :: h :: l :: rest =>
      if p =? PERCENT then
        match hex_value h, hex_value l with
        | Some x, Some y => Ok (16 * x + y, rest)
        | _, _ => Err URIError
        end
      else Err URIError
  | _ => Err URIError
  end.

Fixpoint read_escapes (n : nat) (s : jsstring) : result (list Z * jsstring) :=
  match n with
  | O => Ok ([], s)
  | S n' =>
      do (b, s1) <- read_escape s;
      do (bs, s2) <- read_escapes n' s1;
      Ok (b :: bs, s2)
  end.

(** The number of leading 1 bits of an octet; 5 stands for "more than 4". *)
Definition leading_ones (b : Z) : nat :=
  if b <? 0x80 then 0
  else if b <? 0xC0 then 1
  else if b <? 0xE0 then 2
  else if b <? 0xF0 then 3
  else if b <? 0xF8 then 4
  else 5.

Definition is_continuation (b : Z) : bool := (0x80 <=? b) && (b <? 0xC0).

(** The code point of a well-formed multi-octet UTF-8 sequence: continuation
    octets are [10xxxxxx], the value is not over-long, not a surrogate and at
    most U+10FFFF. *)
Definition utf8_code_point (octets : list Z) : option Z :=
  match octets with
  | [b1; b2] =>
      let v := (b1 - 0xC0) * 64 + (b2 - 0x80) in
      if is_continuation b2 && (0x80 <=? v) then Some v else None
  | [b1; b2; b3] =>
      let v := (b1 - 0xE0) * 4096 + (b2 - 0x80) * 64 + (b3 - 0x80) in
      if is_continuation b2 && is_continuation b3 && (0x800 <=? v)
         && negb ((0xD800 <=? v) && (v <=? 0xDFFF))
      then Some v else None
  | [b1; b2; b3; b4] =>
      let v := (b1 - 0xF0) * 262144 + (b2 - 0x80) * 4096
               + (b3 - 0x80) * 64 + (b4 - 0x80) in
      if is_continuation b2 && is_continuation b3 && is_continuation b4
         && (0x10000 <=? v) && (v <=? 0x10FFFF)
      then Some v else None
  | _ => None
  end.

(** UTF16EncodeCodePoint *)
Definition utf16_encode (v : Z) : jsstring :=
  if v <? 0x10000 then [v]
  else [0xD800 + (v - 0x10000) / 1024; 0xDC00 + (v - 0x10000) mod 1024].

(** One iteration of the Decode loop on a non-empty input: the text it
    appends and the input left. *)
Definition decode_step (s : jsstring) : result (jsstring * jsstring) :=
  match s with
  | [] => Ok ([], [])
  | c :: t =>
      if negb (c =? PERCENT) then Ok ([c], t)
      else
        do (b, rest) <- read_escape s;
        match leading_ones b with
        | O => Ok ([b], rest)
        | S O => Err URIError
        | S (S (S (S (S _)))) => Err URIError
        | S n' =>
            do (bs, rest') <- read_escapes n' rest;
            match utf8_code_point (b :: bs) with
            | Some v => Ok (utf16_encode v, rest')
            | None => Err URIError
            end
        end
  end.

(** The Decode loop.  Every iteration consumes at least one code unit, so
    the length of the input is fuel enough (see [decode_loop_fuel]). *)
Fixpoint decode_loop (fuel : nat) (s : jsstring) : result jsstring :=
  match s with
  | [] => Ok []
  | _ :: _ =>
      match fuel with
      | O => Err URIError
      | S fuel' =>
          do (out, rest) <- decode_step s;
          do r <- decode_loop fuel' rest;
          Ok (out ++ r)
      end
  end.

(** [decodeURIComponent] (ECMA-262, Decode with an empty reserved set). *)
Definition decodeURIComponent (s : jsstring) : result jsstring :=
  decode_loop (length s) s.

(** The alternatives of [/%7B|%7D|%3A|%5B|%5D/g]. *)
Definition allow_list : list jsstring :=
  [lit "%7B"; lit "%7D"; lit "%3A"; lit "%5B"; lit "%5D"].

(** [.replace(/%7B|%7D|%3A|%5B|%5D/g, function (s) { return
    decodeURIComponent(s); })]: scanning from the left, each occurrence of an
    alternative is replaced by what the callback returns for it. *)
Fixpoint restore_allowed (s : jsstring) : result jsstring :=
  match s with
  | [] => Ok []
  | c :: t =>
      match t with
      | h :: l :: rest =>
          if bool_decide ([c; h; l] ∈ allow_list) then
            do out <- decodeURIComponent [c; h; l];
            do more <- restore_allowed rest;
            Ok (out ++ more)
          else
            do more <- restore_allowed t; Ok (c :: more)
      | _ => do more <- restore_allowed t; Ok (c :: more)
      end
  end.

Definition encodeValue (value : jsstring) : result jsstring :=
  do escaped <- encodeURIComponent value;
  restore_allowed escaped.

Definition decodeValue (value : jsstring) : result jsstring :=
  decodeURIComponent value.

(** ** The scramble registry *)

(** A registered algorithm.  A property that is missing from the object is
    [None]; calling it raises a TypeError. *)
Record scrambler := {
  encode : option (jsstring -> result jsstring);
  decode : option (jsstring -> result jsstring)
}.

(** [cookie.scramblers] and [cookie.scramblerDefault]; both can be changed
    by callers. *)
Record registry := {
  scramblers : gmap jsstring scrambler;
  scramblerDefault : jsstring
}.

(** The properties every plain object inherits from [Object.prototype].  Each
    is a function or an object: truthy, and without an [encode] or [decode]
    property of its own. *)
Definition object_prototype_names : list jsstring :=
  [ lit "constructor"; lit "toString"; lit "toLocaleString"; lit "valueOf";
    lit "hasOwnProperty"; lit "isPrototypeOf"; lit "propertyIsEnumerable";
    lit "__proto__"; lit "__defineGetter__"; lit "__defineSetter__";
    lit "__lookupGetter__"; lit "__lookupSetter__" ].

Definition inherited_property : scrambler := {| encode := None; decode := None |}.

(** [self.scramblers[key]]: an own property first, then the prototype chain;
    [None] is [undefined]. *)
Definition get_scrambler (self : registry) (key : jsstring) : option scrambler :=
  match scramblers self !! key with
  | Some s => Some s
  | None =>
      if bool_decide (key ∈ object_prototype_names)
      then Some inherited_property
      else None
  end.

Definition rot13_scrambler : scrambler := {|
  encode := Some (fun text => Ok (rot13 (JString text)));
  decode := Some (fun text => Ok (rot13 (JString text)))
|}.

Definition rot13n_scrambler : scrambler := {|
  encode := Some (fun text => rot5 (JString (rot13 (JString text))));
  decode := Some (fun text => rot5 (JString (rot13 (JString text))))
|}.

(** The registry as the module creates it. *)
Definition initial_registry : registry := {|
  scramblers :=
    <[lit "rot13" := rot13_scrambler]> (<[lit "rot13n" := rot13n_scrambler]> ∅);
  scramblerDefault := lit "rot13n"
|}.

(** ** Options *)

(** [options.scramble]: absent (or [false]), [true], or a string. *)
Inductive scramble_option :=
  | ScrambleAbsent
  | ScrambleTrue
  | ScrambleName (name : jsstring).

(** The property key [options.scramble] is used as when it is truthy; the
    empty string is falsy. *)
Definition scramble_key (o : scramble_option) : option jsstring :=
  match o with
  | ScrambleAbsent => None
  | ScrambleTrue => Some (lit "true")
  | ScrambleName [] => None
  | ScrambleName name => Some name
  end.

(** [options.expires]: absent, a whole number of days, or a date given by
    the text of its [toUTCString()]. *)
Inductive expires_option :=
  | ExpiresAbsent
  | ExpiresDays (n : Z)
  | ExpiresDate (utc : jsstring).

Record options := {
  expires : expires_option;
  path : option jsstring;
  domain : option jsstring;
  secure : bool;
  scramble : scramble_option
}.

(** [{}], also what an absent [options] argument becomes. *)
Definition no_options : options := {|
  expires := ExpiresAbsent; path := None; domain := None;
  secure := false; scramble := ScrambleAbsent
|}.

(** ** Reading the raw cookie text *)

(** [s.split(';')] *)
Fixpoint split_semicolon (s : jsstring) : list jsstring :=
  match s with
  | [] => [[]]
  | c :: t =>
      if c =? 59 then [] :: split_semicolon t
      else
        match split_semicolon t with
        | piece :: pieces => (c :: piece) :: pieces
        | [] => [[c]]
        end
  end.

(** [\s|\u00A0] *)
Definition is_white_space (c : Z) : bool :=
  ((9 <=? c) && (c <=? 13)) || (c =? 32) || (c =? 0xA0) || (c =? 0x1680)
  || ((0x2000 <=? c) && (c <=? 0x200A)) || (c =? 0x2028) || (c =? 0x2029)
  || (c =? 0x202F) || (c =? 0x205F) || (c =? 0x3000) || (c =? 0xFEFF).

Fixpoint skip_white_space (s : jsstring) : jsstring :=
  match s with
  | c :: t => if is_white_space c then skip_white_space t else s
  | [] => []
  end.

(** [(str || "").replace(rtrim, "")]: the leading and the trailing run of
    white space are removed. *)
Definition trim (str : jsstring) : jsstring :=
  rev (skip_white_space (rev (skip_white_space str))).

(** The loop over [cookies]: the text after [name=] in the first piece that,
    once trimmed, begins with [name=]. *)
Fixpoint find_cookie (name : jsstring) (cookies : list jsstring) : option jsstring :=
  match cookies with
  | [] => None
  | piece :: cookies' =>
      let cookie := trim piece in
      if bool_decide (take (length name + 1) cookie = name ++ lit "=")
      then Some (drop (length name + 1) cookie)
      else find_cookie name cookies'
  end.

(** ** JSON values, as [JSON.parse] returns them *)

#[local] Set Warnings "-register-all".
Inductive json :=
  | JsonNull
  | JsonBool (b : bool)
  | JsonNumber (text : jsstring)
  | JsonString (s : jsstring)
  | JsonArray (items : list json)
  | JsonObject (members : list (jsstring * json)).

(** ** The accessor *)

Section Accessor.

(** [new Date(now + n days).toUTCString()], for the clock of the call. *)
Variable utc_in_days : Z -> jsstring.

(** [JSON.parse]; [None] is a SyntaxError. *)
Variable JSON_parse : jsstring -> option json.

(** The value of the accessor's own variable [cookie] when [self = cookie]
    runs.  The accessor declares [var cookie] among its locals (line 279);
    the declaration is hoisted and shadows the module's [cookie], and nothing
    has been assigned to it when line 296 reads it: [self] is [undefined],
    here [None], not the function object that carries [scramblers]. *)
Definition cookie_local_at_entry : option registry := None.

(** The scramble branch of write mode.  [self.scramblers] on [undefined]
    raises a TypeError. *)
Definition scramble_value (self : option registry) (key value : jsstring)
  : result jsstring :=
  match self with
  | None => Err TypeError
  | Some self =>
      let key :=
        match get_scrambler self key with
        | None => scramblerDefault self
        | Some _ => key
        end in
      match get_scrambler self key with
      | None => Err TypeError
      | Some s =>
          match encode s with
          | None => Err TypeError
          | Some f => do value <- f value; Ok (scramblePrefixAdd key value)
          end
      end
  end.

(** Write mode; [value] is the second argument after [null] has been
    replaced.  Returns the value returned to the caller and the text
    assigned to [document.cookie]. *)
Definition cookie_write (self : option registry) (name value : jsstring)
    (opts : options) : result (jsstring * jsstring) :=
  do value <-
    match scramble_key (scramble opts) with
    | Some key => scramble_value self key value
    | None => Ok value
    end;
  let expires_attr :=
    match expires opts with
    | ExpiresAbsent => []
    | ExpiresDays n =>
        if n =? 0 then [] else lit "; expires=" ++ utc_in_days n
    | ExpiresDate utc => lit "; expires=" ++ utc
    end in
  let domain_attr :=
    match domain opts with
    | None | Some [] => []
    | Some d => lit "; domain=" ++ d
    end in
  let secure_attr := if secure opts then lit "; secure" else [] in
  let path_attr :=
    match path opts with
    | None => lit "; path=/"
    | Some [] => []
    | Some p => lit "; path=" ++ p
    end in
  do encoded <- encodeValue value;
  Ok (value,
      name ++ lit "=" ++ encoded ++ expires_attr ++ path_attr
           ++ domain_attr ++ secure_attr).

(** The scramble branch of read mode.  The prefix is read from the value
    first; [self.scramblers[prefix]] on [undefined] then raises a
    TypeError. *)
Definition unscramble_value (self : option registry) (cookieValue : jsstring)
  : result jsstring :=
  let prefix := scramblePrefixGet cookieValue in
  let prefix := match prefix with [] => lit "rot13" | _ => prefix end in
  match self with
  | None => Err TypeError
  | Some self =>
      match get_scrambler self prefix with
      | None =>
          Err (Thrown (lit "Cannot unscramble cookie with prefix " ++ prefix))
      | Some s =>
          let cookieValue := scramblePrefixRemove cookieValue in
          match decode s with
          | None => Err TypeError
          | Some f => f cookieValue
          end
      end
  end.

(** Read mode over the text [doc] of [document.cookie]; [JNull] when no
    cookie of that name is found. *)
Definition cookie_read (self : option registry) (doc name : jsstring)
    (opts : options) : result jsval :=
  match doc with
  | [] => Ok JNull
  | _ :: _ =>
      match find_cookie name (split_semicolon doc) with
      | None => Ok JNull
      | Some raw =>
          do cookieValue <- decodeValue raw;
          match scramble_key (scramble opts) with
          | Some _ =>
              do cookieValue <- unscramble_value self cookieValue;
              Ok (JString cookieValue)
          | None => Ok (JString cookieValue)
          end
      end
  end.

(** [cookie(name, value, options)]: the value returned, and the text
    assigned to [document.cookie] if any.  [exported] is the function object
    the module returns, with its [scramblers] and [scramblerDefault]; the
    body does not reach it: its [self] is the local variable above. *)
Definition cookie (exported : registry) (doc name : jsstring) (value : jsval)
    (opts : options) : result (jsval * option jsstring) :=
  let self := cookie_local_at_entry in
  match value with
  | JUndefined =>
      do v <- cookie_read self doc name opts; Ok (v, None)
  | JNull =>
      let opts := {| expires := ExpiresDays (-1); path := path opts;
                     domain := domain opts; secure := secure opts;
                     scramble := scramble opts |} in
      do (v, text) <- cookie_write self name [] opts;
      Ok (JString v, Some text)
  | JString s =>
      do (v, text) <- cookie_write self name s opts;
      Ok (JString v, Some text)
  end.

(** The methods call the function object they are attached to, [this]. *)
Definition get (this : registry) (doc name : jsstring) (opts : options)
  : result jsstring :=
  do (v, _) <- cookie this doc name JUndefined opts;
  Ok (match v with JString s => s | JNull | JUndefined => [] end).

Definition set (this : registry) (doc name : jsstring) (value : jsval)
    (opts : options) : result (jsval * option jsstring) :=
  cookie this doc name value opts.

Definition getJson (this : registry) (doc name : jsstring) (opts : options)
  : result json :=
  do (value, _) <- cookie this doc name JUndefined opts;
  match value with
  | JString s =>
      match JSON_parse s with
      | Some parsed => Ok parsed
      | None => Ok (JsonObject [])
      end
  | JNull | JUndefined => Ok (JsonObject [])
  end.

(** [exists(name)]: the accessor is called with a name only. *)
Definition cookie_exists (this : registry) (doc name : jsstring)
  : result bool :=
  do (v, _) <- cookie this doc name JUndefined no_options;
  Ok (match v with JNull => false | _ => true end).

Definition deleteCookie (this : registry) (doc name : jsstring)
    (opts : options) : result (jsval * option jsstring) :=
  let opts := {| expires := ExpiresDays (-1); path := path opts;
                 domain := domain opts; secure := secure opts;
                 scramble := scramble opts |} in
  cookie this doc name (JString []) opts.

End Accessor.

(** ** Vocabulary of the codec properties *)

(** Every element is a UTF-16 code unit. *)
Definition is_string (s : jsstring) : Prop := Forall (fun c => 0 <= c < 65536) s.

(** [String.prototype.isWellFormed]: code units with no unpaired surrogate. *)
Fixpoint isWellFormed (s : jsstring) : bool :=
  match s with
  | [] => true
  | c :: t =>
      (0 <=? c) && (c <? 65536) &&
      (if is_trail_surrogate c then false
       else if is_lead_surrogate c then
         match t with
         | d :: t' => is_trail_surrogate d && isWellFormed t'
         | [] => false
         end
       else isWellFormed t)
  end.

(** What the storage channel does not allow in a value: comma, semicolon,
    equals sign and white space. *)
Definition is_forbidden (c : Z) : bool :=
  (c =? 44) || (c =? 59) || (c =? 61) || is_white_space c.

(** The five characters [encodeValue] gives back as literals. *)
Definition is_restored (c : Z) : bool :=
  (c =? 123) || (c =? 125) || (c =? 58) || (c =? 91) || (c =? 93).

(** The characters [encodeValue] can produce. *)
Definition in_transport_alphabet (c : Z) : bool :=
  is_uri_unreserved c || (c =? PERCENT) || is_restored c.

(** What [encodeValue] makes of one escaped octet. *)
Definition restored_octet (b : Z) : jsstring :=
  if bool_decide (percent_octet b ∈ allow_list) then [b] else percent_octet b.

(** A cookie named [name] occurs in the text of [document.cookie]: some
    piece between semicolons, once trimmed, begins with [name=]. *)
Definition has_cookie (doc name : jsstring) : Prop :=
  Exists (fun piece => (name ++ lit "=") `prefix_of` trim piece)
         (split_semicolon doc).

(** The algorithm name read mode goes by: the tag of the value, or [rot13]
    when it has none. *)
Definition effective_prefix (cookieValue : jsstring) : jsstring :=
  let prefix := scramblePrefixGet cookieValue in
  match prefix with [] => lit "rot13" | _ => prefix end.

(** [{scramble: true}] *)
Definition scramble_true : options := {|
  expires := ExpiresAbsent; path := None; domain := None;
  secure := false; scramble := ScrambleTrue
|}.

(** [{scramble: name}] *)
Definition scramble_with (name : jsstring) : options := {|
  expires := ExpiresAbsent; path := None; domain := None;
  secure := false; scramble := ScrambleName name
|}.

(** ** [setJson] *)

Section JsonWriter.

(** [new Date(now + n days).toUTCString()], for the clock of the call. *)
Variable utc_in_days : Z -> jsstring.

(** [JSON.stringify] on a JSON value; the result is always a string. *)
Variable JSON_stringify : json -> jsstring.

Definition setJson (this : registry) (doc name : jsstring) (oValue : json)
    (opts : options) : result (jsval * option jsstring) :=
  cookie utc_in_days this doc name (JString (JSON_stringify oValue)) opts.

End JsonWriter.

(** ** Vocabulary of the accessor properties *)

(** The first, respectively the last, code unit is white space. *)
Definition starts_white (s : jsstring) : bool :=
  match s with
  | c :: _ => is_white_space c
  | [] => false
  end.

Definition ends_white (s : jsstring) : bool := starts_white (rev s).

(** No semicolon occurs in the text. *)
Definition semicolon_free (s : jsstring) : Prop := Forall (fun c => c <> 59) s.

(** The text of [document.cookie] for a sequence of [name=value] pairs: the
    pairs joined by a semicolon and a space. *)
Definition cookie_jar (pairs : list jsstring) : jsstring :=
  match pairs with
  | [] => []
  | p :: ps => p ++ flat_map (fun q => lit "; " ++ q) ps
  end.

(** The text [name=value] of a pair. *)
Definition pair_text (p : jsstring * jsstring) : jsstring :=
  fst p ++ lit "=" ++ snd p.

(** A piece of the cookie text that, once trimmed, begins with [name=]. *)
Definition names (name piece : jsstring) : Prop :=
  (name ++ lit "=") `prefix_of` trim piece.

(** The options with another [expires]. *)
Definition with_expires (e : expires_option) (opts : options) : options := {|
  expires := e; path := path opts; domain := domain opts;
  secure := secure opts; scramble := scramble opts
|}.

(** The attribute text write mode appends after the value. *)
Definition attributes (utc_in_days : Z -> jsstring) (opts : options) : jsstring :=
  match expires opts with
  | ExpiresAbsent => []
  | ExpiresDays n => if n =? 0 then [] else lit "; expires=" ++ utc_in_days n
  | ExpiresDate utc => lit "; expires=" ++ utc
  end
  ++ match path opts with
     | None => lit "; path=/"
     | Some [] => []
     | Some p => lit "; path=" ++ p
     end
  ++ match domain opts with
     | None | Some [] => []
     | Some d => lit "; domain=" ++ d
     end
  ++ (if secure opts then lit "; secure" else []).

(** ** Tactics *)

(** Boolean comparisons on [Z] to propositions [lia] understands. *)
Ltac bprop_in H :=
  repeat (progress rewrite
    ?andb_true_iff, ?orb_true_iff, ?negb_true_iff, ?negb_false_iff,
    ?andb_false_iff, ?orb_false_iff, ?Z.leb_le, ?Z.ltb_lt, ?Z.eqb_eq,
    ?Z.leb_gt, ?Z.ltb_ge, ?Z.eqb_neq in H).

Ltac bprop :=
  repeat (progress rewrite
    ?andb_true_iff, ?orb_true_iff, ?negb_true_iff, ?negb_false_iff,
    ?andb_false_iff, ?orb_false_iff, ?Z.leb_le, ?Z.ltb_lt, ?Z.eqb_eq,
    ?Z.leb_gt, ?Z.ltb_ge, ?Z.eqb_neq).

(** Case analysis on the condition of the first [if] of the goal. *)
Ltac case_if :=
  match goal with
  | |- context [if ?b then _ else _] =>
      let E := fresh "E" in destruct b eqn:E; bprop_in E
  end.

(** Linear arithmetic with divisions and remainders by constants. *)
Ltac dlia := Z.div_mod_to_equations; lia.

(** * Properties *)

(** ** Text rotation *)

Lemma replace_class_map cls f g s :
  (forall c, cls c = true -> f c = [g c]) ->
  (forall c, cls c = false -> g c = c) ->
  replace_class cls f s = map g s.
Proof.
  intros Hf Hg. unfold replace_class.
  induction s as [|c s IH]; simpl; [reflexivity|].
  rewrite IH. destruct (cls c) eqn:E.
  - rewrite (Hf c E). reflexivity.
  - rewrite (Hg c E). reflexivity.
Qed.

Lemma rot13_map s : rot13 (JString s) = map rot13_code s.
Proof.
  unfold rot13. simpl. apply replace_class_map; intros c E.
  - unfold rot13_char, rot13_code, fromCharCode. rewrite E.
    unfold is_ascii_letter in E. bprop_in E.
    f_equal. rewrite Z.mod_small by (case_if; lia).
    repeat case_if; lia.
  - unfold rot13_code. rewrite E. reflexivity.
Qed.

Lemma rot5replace_digit c :
  is_ascii_digit c = true -> rot5replace [c] = [rot5_code c].
Proof.
  unfold is_ascii_digit. intros E. bprop_in E.
  assert (c = 48 \/ c = 49 \/ c = 50 \/ c = 51 \/ c = 52 \/ c = 53
          \/ c = 54 \/ c = 55 \/ c = 56 \/ c = 57) as Hc by lia.
  repeat destruct Hc as [-> | Hc]; try subst c; reflexivity.
Qed.

Lemma rot5_map s : rot5 (JString s) = Ok (map rot5_code s).
Proof.
  unfold rot5. f_equal. apply replace_class_map; intros c E.
  - apply rot5replace_digit, E.
  - unfold rot5_code. rewrite E. reflexivity.
Qed.

Lemma rot13_code_involutive c : rot13_code (rot13_code c) = c.
Proof.
  unfold rot13_code.
  destruct (is_ascii_letter c) eqn:E; [|rewrite E; reflexivity].
  unfold is_ascii_letter in *. bprop_in E.
  repeat case_if; lia.
Qed.

Lemma rot5_code_involutive c : rot5_code (rot5_code c) = c.
Proof.
  unfold rot5_code.
  destruct (is_ascii_digit c) eqn:E; [|rewrite E; reflexivity].
  unfold is_ascii_digit in *. bprop_in E.
  repeat case_if; lia.
Qed.

Lemma rot5_rot13_code_commute c :
  rot5_code (rot13_code c) = rot13_code (rot5_code c).
Proof.
  unfold rot5_code, rot13_code, is_ascii_digit, is_ascii_letter.
  repeat case_if; lia.
Qed.

Lemma map_involutive (f : Z -> Z) s : (forall c, f (f c) = c) -> map f (map f s) = s.
Proof.
  intros Hf. rewrite map_map. induction s as [|c s IH]; simpl; [reflexivity|].
  rewrite Hf, IH. reflexivity.
Qed.

Lemma rot13_involutive s : rot13 (JString (rot13 (JString s))) = s.
Proof. rewrite !rot13_map. apply map_involutive, rot13_code_involutive. Qed.

Lemma rot13n_map s :
  rot5 (JString (rot13 (JString s))) = Ok (map (fun c => rot5_code (rot13_code c)) s).
Proof. rewrite rot13_map, rot5_map, map_map. reflexivity. Qed.

Lemma rot13n_involutive s :
  (do y <- rot5 (JString (rot13 (JString s))); rot5 (JString (rot13 (JString y))))
  = Ok s.
Proof.
  rewrite rot13n_map, rot13n_map. f_equal. rewrite map_map.
  induction s as [|c s IH]; simpl; [reflexivity|]. rewrite IH. f_equal.
  rewrite <- rot5_rot13_code_commute, rot5_code_involutive.
  apply rot13_code_involutive.
Qed.

(** C1. Both built-in scramblers are registered under their names with one
    function serving as [encode] and as [decode]; that function is total on
    strings and an involution, so [decode (encode x) = x] for every string
    [x], for [rot13] (letter rotation) and for [rot13n] (digit rotation
    after letter rotation). *)
Theorem builtin_scramblers_round_trip :
  (exists f,
      scramblers initial_registry !! lit "rot13"
        = Some {| encode := Some f; decode := Some f |}
      /\ (forall x, f x = Ok (rot13 (JString x)))
      /\ (forall x, (do y <- f x; f y) = Ok x))
  /\ (exists f,
      scramblers initial_registry !! lit "rot13n"
        = Some {| encode := Some f; decode := Some f |}
      /\ (forall x, f x = rot5 (JString (rot13 (JString x))))
      /\ (forall x, (do y <- f x; f y) = Ok x)).
Proof.
  split.
  - exists (fun text => Ok (rot13 (JString text))).
    split; [reflexivity|]. split; [reflexivity|].
    intros x. simpl. f_equal. apply rot13_involutive.
  - exists (fun text => rot5 (JString (rot13 (JString text)))).
    split; [reflexivity|]. split; [reflexivity|].
    intros x. apply rot13n_involutive.
Qed.

(** C5 (as stated, refuted). [rot5] does not take [null] for the empty
    string: the call raises a TypeError. *)
Lemma rot5_null_raises :
  rot5 JNull = Err TypeError /\ rot5 JNull <> Ok [].
Proof. split; [reflexivity | discriminate]. Qed.

(** C5 (amended). [rot13] takes [null] and [undefined] for the empty string;
    [rot5] raises a TypeError on them, while the composition the module uses,
    [rot5] after [rot13], still maps them to the empty string.  On strings
    both are total and work code unit by code unit: [rot13] moves ASCII
    letters and [rot5] moves ASCII digits, every other code unit is left as
    it is. *)
Theorem rotation_primitives_contract :
  rot13 JNull = [] /\ rot13 JUndefined = []
  /\ rot5 JNull = Err TypeError /\ rot5 JUndefined = Err TypeError
  /\ rot5 (JString (rot13 JNull)) = Ok []
  /\ rot5 (JString (rot13 JUndefined)) = Ok []
  /\ (forall s, rot13 (JString s) = map rot13_code s)
  /\ (forall s, rot5 (JString s) = Ok (map rot5_code s))
  /\ (forall c, is_ascii_letter c = true \/ rot13_code c = c)
  /\ (forall c, is_ascii_digit c = true \/ rot5_code c = c).
Proof.
  repeat split; try reflexivity.
  - apply rot13_map.
  - apply rot5_map.
  - intros c. unfold rot13_code. destruct (is_ascii_letter c); auto.
  - intros c. unfold rot5_code. destruct (is_ascii_digit c); auto.
Qed.

(** ** Prefix tag codec *)

Lemma lazy_capture_app acc body rest :
  Forall (fun d => d <> RBRACKET /\ is_line_terminator d = false) body ->
  lazy_capture acc (body ++ RBRACKET :: rest) = Some (acc ++ body, rest).
Proof.
  intros H. revert acc.
  induction H as [|d body [Hd Hlt] _ IH]; intros acc; simpl.
  - rewrite ?Z.eqb_refl, app_nil_r. reflexivity.
  - destruct (Z.eqb_spec d RBRACKET) as [->|_]; [contradiction|].
    rewrite Hlt, IH, <- app_assoc. reflexivity.
Qed.

Lemma lazy_capture_inv acc s tag rest :
  lazy_capture acc s = Some (tag, rest) ->
  exists body,
    tag = acc ++ body /\ s = body ++ RBRACKET :: rest
    /\ Forall (fun d => d <> RBRACKET /\ is_line_terminator d = false) body.
Proof.
  revert acc. induction s as [|d s IH]; intros acc; simpl; [discriminate|].
  destruct (Z.eqb_spec d RBRACKET) as [->|Hd].
  - intros [= <- <-]. exists []. rewrite app_nil_r. auto.
  - destruct (is_line_terminator d) eqn:Hlt; [discriminate|].
    intros H. destruct (IH _ H) as (body & -> & -> & Hbody).
    exists (d :: body). rewrite <- app_assoc. auto.
Qed.

Lemma match_prefix_tagged c body rest :
  is_line_terminator c = false ->
  Forall (fun d => d <> RBRACKET /\ is_line_terminator d = false) body ->
  match_prefix (LBRACKET :: c :: body ++ RBRACKET :: rest)
  = Some (c :: body, rest).
Proof.
  intros Hc Hbody. unfold match_prefix.
  rewrite Z.eqb_refl, Hc. simpl. apply (lazy_capture_app [c]), Hbody.
Qed.

Lemma match_prefix_inv s tag rest :
  match_prefix s = Some (tag, rest) ->
  exists c body,
    tag = c :: body /\ s = LBRACKET :: c :: body ++ RBRACKET :: rest
    /\ is_line_terminator c = false
    /\ Forall (fun d => d <> RBRACKET /\ is_line_terminator d = false) body.
Proof.
  unfold match_prefix. destruct s as [|b [|c s]]; try discriminate.
  destruct (Z.eqb_spec b LBRACKET) as [->|]; [|discriminate].
  destruct (is_line_terminator c) eqn:Hc; [discriminate|]. simpl.
  intros H. apply lazy_capture_inv in H as (body & -> & -> & Hbody).
  exists c, body. auto.
Qed.

Lemma scramblePrefixGet_nil s :
  scramblePrefixGet s = [] <-> match_prefix s = None.
Proof.
  unfold scramblePrefixGet. destruct (match_prefix s) as [[tag rest]|] eqn:E.
  - apply match_prefix_inv in E as (c & body & -> & _). split; discriminate.
  - split; reflexivity.
Qed.

(** C4 (as stated, refuted). A one-character name that is a line feed is
    non-empty and has no [']'], yet the tag is not read back and not
    stripped: [.] does not match a line terminator. *)
Lemma tag_with_line_feed_not_read :
  [10] <> [] /\ Forall (fun c => c <> RBRACKET) [10]
  /\ scramblePrefixGet (scramblePrefixAdd [10] (lit "hello")) = []
  /\ scramblePrefixGet (scramblePrefixAdd [10] (lit "hello")) <> [10]
  /\ scramblePrefixRemove (scramblePrefixAdd [10] (lit "hello")) <> lit "hello".
Proof.
  split; [discriminate|]. split; [repeat constructor; discriminate|].
  split; [reflexivity|]. split; discriminate.
Qed.

Lemma lazy_capture_line_terminator acc body lt rest :
  Forall (fun d => d <> RBRACKET /\ is_line_terminator d = false) body ->
  is_line_terminator lt = true ->
  lazy_capture acc (body ++ lt :: rest) = None.
Proof.
  intros H Hlt. revert acc.
  induction H as [|d body [Hd Hdl] _ IH]; intros acc; cbn [app lazy_capture].
  - destruct (Z.eqb_spec lt RBRACKET) as [->|_]; [discriminate Hlt|].
    rewrite Hlt. reflexivity.
  - destruct (Z.eqb_spec d RBRACKET) as [->|_]; [contradiction|].
    rewrite Hdl. apply IH.
Qed.

Lemma match_prefix_line_terminator c body lt rest :
  Forall (fun d => d <> RBRACKET /\ is_line_terminator d = false) body ->
  is_line_terminator lt = true ->
  match_prefix (LBRACKET :: lt :: rest) = None
  /\ match_prefix (LBRACKET :: c :: body ++ lt :: rest) = None.
Proof.
  intros Hbody Hlt. unfold match_prefix. rewrite Z.eqb_refl, Hlt.
  split; [reflexivity|].
  destruct (is_line_terminator c); [reflexivity|]. cbn [andb negb].
  apply lazy_capture_line_terminator; assumption.
Qed.

(** C4 (amended). For every non-empty name whose characters are neither [']']
    nor line terminators and every payload, the tag is read back and
    stripped.  The capture is the character after the leading ['['],
    whatever it is but a line terminator (a [']'] there belongs to the
    capture), and the characters after it up to the first [']'] that
    follows: on ['['], [c], [body], [']'], [rest], with no [']'] and no line
    terminator in [body], the tag is [c :: body] and stripping leaves
    [rest].  A line terminator right after ['['] or before that [']'] makes
    the match fail: the tag is empty and the value is left as it is.  Every
    string [s] that is not of the matching shape has no tag, and
    stripping returns [s]. *)
Theorem tag_codec_laws (name payload s : jsstring) :
  name <> [] ->
  Forall (fun c => c <> RBRACKET /\ is_line_terminator c = false) name ->
  (scramblePrefixGet (scramblePrefixAdd name payload) = name
   /\ scramblePrefixRemove (scramblePrefixAdd name payload) = payload)
  /\ (forall c body rest,
        is_line_terminator c = false ->
        Forall (fun d => d <> RBRACKET /\ is_line_terminator d = false) body ->
        scramblePrefixGet (LBRACKET :: c :: body ++ RBRACKET :: rest) = c :: body
        /\ scramblePrefixRemove (LBRACKET :: c :: body ++ RBRACKET :: rest)
           = rest)
  /\ (forall c body lt rest,
        is_line_terminator lt = true ->
        Forall (fun d => d <> RBRACKET /\ is_line_terminator d = false) body ->
        scramblePrefixGet (LBRACKET :: lt :: rest) = []
        /\ scramblePrefixRemove (LBRACKET :: lt :: rest) = LBRACKET :: lt :: rest
        /\ scramblePrefixGet (LBRACKET :: c :: body ++ lt :: rest) = []
        /\ scramblePrefixRemove (LBRACKET :: c :: body ++ lt :: rest)
           = LBRACKET :: c :: body ++ lt :: rest)
  /\ ((exists c body rest,
         s = LBRACKET :: c :: body ++ RBRACKET :: rest
         /\ is_line_terminator c = false
         /\ Forall (fun d => d <> RBRACKET /\ is_line_terminator d = false) body)
      \/ (scramblePrefixGet s = [] /\ scramblePrefixRemove s = s)).
Proof.
  intros Hne Hname.
  assert (forall c body rest,
            is_line_terminator c = false ->
            Forall (fun d => d <> RBRACKET /\ is_line_terminator d = false) body ->
            scramblePrefixGet (LBRACKET :: c :: body ++ RBRACKET :: rest)
            = c :: body
            /\ scramblePrefixRemove (LBRACKET :: c :: body ++ RBRACKET :: rest)
               = rest) as Htagged.
  { intros c body rest Hc Hbody.
    unfold scramblePrefixGet, scramblePrefixRemove.
    rewrite (match_prefix_tagged c body rest Hc Hbody). auto. }
  split; [|split; [exact Htagged|split]].
  - destruct name as [|c body]; [contradiction|].
    apply Forall_cons in Hname as [[_ Hc] Hbody].
    apply (Htagged c body payload Hc Hbody).
  - intros c body lt rest Hlt Hbody.
    destruct (match_prefix_line_terminator c body lt rest Hbody Hlt) as [H1 H2].
    unfold scramblePrefixGet, scramblePrefixRemove. rewrite H1, H2. auto.
  - unfold scramblePrefixGet, scramblePrefixRemove.
    destruct (match_prefix s) as [[tag rest]|] eqn:E; [left|right; auto].
    apply match_prefix_inv in E as (c & body & _ & -> & Hc & Hbody).
    exists c, body, rest. auto.
Qed.

Lemma tag_codec_laws_witness :
  (scramblePrefixGet (scramblePrefixAdd (lit "rot13") (lit "hello")) = lit "rot13"
   /\ scramblePrefixRemove (scramblePrefixAdd (lit "rot13") (lit "hello"))
      = lit "hello")
  /\ scramblePrefixGet (lit "[]]x") = lit "]"
  /\ scramblePrefixGet (lit "[ab" ++ [10] ++ lit "c]x") = [].
Proof.
  destruct (tag_codec_laws (lit "rot13") (lit "hello") (lit "[]x"))
    as (Hround & Htagged & Hline & _).
  - discriminate.
  - repeat constructor; discriminate.
  - split; [exact Hround|]. split.
    + apply (Htagged RBRACKET [] (lit "x")); [reflexivity|constructor].
    + apply (Hline 97 (lit "b") 10 (lit "c]x")); [reflexivity|].
      repeat constructor; discriminate.
Defined.

(** ** Percent escapes *)

Lemma hex_digit_range d :
  0 <= d < 16 ->
  48 <= hex_digit d <= 57 \/ 65 <= hex_digit d <= 70.
Proof. intros H. unfold hex_digit. case_if; lia. Qed.

Lemma hex_value_hex_digit d : 0 <= d < 16 -> hex_value (hex_digit d) = Some d.
Proof.
  intros H. unfold hex_value, hex_digit, is_ascii_digit.
  destruct (Z.ltb_spec d 10).
  - replace ((48 <=? 48 + d) && (48 + d <=? 57)) with true
      by (symmetry; bprop; lia).
    f_equal. lia.
  - replace ((48 <=? 55 + d) && (55 + d <=? 57)) with false
      by (symmetry; bprop; lia).
    replace ((65 <=? 55 + d) && (55 + d <=? 70)) with true
      by (symmetry; bprop; lia).
    f_equal. lia.
Qed.

Lemma read_escape_percent_octet b rest :
  0 <= b < 256 ->
  read_escape (PERCENT :: hex_digit (b / 16) :: hex_digit (b mod 16) :: rest)
  = Ok (b, rest).
Proof.
  intros H. unfold read_escape. rewrite Z.eqb_refl.
  rewrite !hex_value_hex_digit by dlia.
  do 2 f_equal. dlia.
Qed.

Lemma read_escape_length s b rest :
  read_escape s = Ok (b, rest) -> length s = S (S (S (length rest))).
Proof.
  unfold read_escape. destruct s as [|p [|h [|l t]]]; try discriminate.
  destruct (p =? PERCENT); [|discriminate].
  destruct (hex_value h), (hex_value l); try discriminate.
  intros [= _ <-]. reflexivity.
Qed.

Lemma read_escapes_length n s bs rest :
  read_escapes n s = Ok (bs, rest) -> (length rest <= length s)%nat.
Proof.
  revert s bs rest. induction n as [|n IH]; intros s bs rest; simpl.
  - intros [= _ <-]. lia.
  - destruct (read_escape s) as [[b s1]|] eqn:E1; [|discriminate].
    destruct (read_escapes n s1) as [[bs' s2]|] eqn:E2; [|discriminate].
    intros [= _ <-]. apply read_escape_length in E1. apply IH in E2. lia.
Qed.

Lemma decode_step_shorter c t out rest :
  decode_step (c :: t) = Ok (out, rest) -> (length rest <= length t)%nat.
Proof.
  unfold decode_step. destruct (negb (c =? PERCENT)).
  - intros [= _ <-]. lia.
  - destruct (read_escape (c :: t)) as [[b s1]|] eqn:E1; [|discriminate].
    apply read_escape_length in E1. simpl in E1.
    destruct (leading_ones b) as [|[|[|[|[|n]]]]]; try discriminate.
    + intros [= _ <-]. lia.
    + destruct (read_escapes 1 s1) as [[bs s2]|] eqn:E2; [|discriminate].
      apply read_escapes_length in E2.
      destruct (utf8_code_point (b :: bs)); [|discriminate].
      intros [= _ <-]. lia.
    + destruct (read_escapes 2 s1) as [[bs s2]|] eqn:E2; [|discriminate].
      apply read_escapes_length in E2.
      destruct (utf8_code_point (b :: bs)); [|discriminate].
      intros [= _ <-]. lia.
    + destruct (read_escapes 3 s1) as [[bs s2]|] eqn:E2; [|discriminate].
      apply read_escapes_length in E2.
      destruct (utf8_code_point (b :: bs)); [|discriminate].
      intros [= _ <-]. lia.
Qed.

(** The fuel of the Decode loop never runs out: any amount at least the
    length of the input gives the same result. *)
Lemma decode_loop_fuel f1 f2 s :
  (length s <= f1)%nat -> (length s <= f2)%nat ->
  decode_loop f1 s = decode_loop f2 s.
Proof.
  revert f2 s. induction f1 as [|f1 IH]; intros f2 s H1 H2.
  - destruct s; [|simpl in H1; lia]. destruct f2; reflexivity.
  - destruct s as [|c t]; [destruct f2; reflexivity|].
    destruct f2 as [|f2]; [simpl in H2; lia|].
    cbn [decode_loop].
    destruct (decode_step (c :: t)) as [[out rest]|] eqn:E; [|reflexivity].
    apply decode_step_shorter in E. simpl in H1, H2.
    rewrite (IH f2 rest) by lia. reflexivity.
Qed.

Lemma decodeURIComponent_nil : decodeURIComponent [] = Ok [].
Proof. reflexivity. Qed.

Lemma decodeURIComponent_step c t :
  decodeURIComponent (c :: t) =
  (do (out, rest) <- decode_step (c :: t);
   do r <- decodeURIComponent rest;
   Ok (out ++ r)).
Proof.
  unfold decodeURIComponent. cbn [length decode_loop].
  destruct (decode_step (c :: t)) as [[out rest]|] eqn:E; [|reflexivity].
  apply decode_step_shorter in E.
  rewrite (decode_loop_fuel (length t) (length rest) rest) by lia.
  reflexivity.
Qed.

Lemma decodeURIComponent_literal c t :
  c <> PERCENT ->
  decodeURIComponent (c :: t) = (do r <- decodeURIComponent t; Ok (c :: r)).
Proof.
  intros Hc. rewrite decodeURIComponent_step. unfold decode_step.
  destruct (Z.eqb_spec c PERCENT); [contradiction|]. reflexivity.
Qed.

Lemma read_escapes_octets bs rest :
  Forall (fun b => 0 <= b < 256) bs ->
  read_escapes (length bs) (flat_map percent_octet bs ++ rest) = Ok (bs, rest).
Proof.
  induction 1 as [|b bs Hb _ IH]; [reflexivity|].
  cbn [length flat_map read_escapes]. rewrite <- app_assoc.
  unfold percent_octet at 1. cbn [app].
  rewrite read_escape_percent_octet by exact Hb. rewrite IH. reflexivity.
Qed.

Lemma decode_step_escape b rest :
  0 <= b < 256 ->
  decode_step (percent_octet b ++ rest) =
  match leading_ones b with
  | O => Ok ([b], rest)
  | S O => Err URIError
  | S (S (S (S (S _)))) => Err URIError
  | S n' =>
      do (bs, rest') <- read_escapes n' rest;
      match utf8_code_point (b :: bs) with
      | Some v => Ok (utf16_encode v, rest')
      | None => Err URIError
      end
  end.
Proof.
  intros H. unfold decode_step, percent_octet. cbn [app].
  rewrite Z.eqb_refl. cbn [negb].
  rewrite read_escape_percent_octet by exact H. reflexivity.
Qed.

Lemma decodeURIComponent_cons s :
  s <> [] ->
  decodeURIComponent s =
  (do (out, rest) <- decode_step s;
   do r <- decodeURIComponent rest;
   Ok (out ++ r)).
Proof. destruct s; [contradiction|]. intros _. apply decodeURIComponent_step. Qed.

Lemma percent_octet_app_not_nil b rest : percent_octet b ++ rest <> [].
Proof. discriminate. Qed.

Lemma decode_single_escape b rest :
  0 <= b < 128 ->
  decodeURIComponent (percent_octet b ++ rest) =
  (do r <- decodeURIComponent rest; Ok (b :: r)).
Proof.
  intros H. rewrite decodeURIComponent_cons by apply percent_octet_app_not_nil.
  rewrite decode_step_escape by lia.
  unfold leading_ones. destruct (Z.ltb_spec b 128); [reflexivity|lia].
Qed.

(** ** The allow-list *)

Lemma allow_list_inv c h l :
  [c; h; l] ∈ allow_list ->
  c = PERCENT
  /\ ((h = 55 /\ l = 66) \/ (h = 55 /\ l = 68) \/ (h = 51 /\ l = 65)
      \/ (h = 53 /\ l = 66) \/ (h = 53 /\ l = 68)).
Proof.
  intros H. apply list_elem_of_In in H. vm_compute in H.
  destruct H as [H|[H|[H|[H|[H|[]]]]]]; injection H as <- <- <-;
    split; try reflexivity; auto 10.
Qed.

Lemma allow_listed_octet b :
  0 <= b < 256 -> percent_octet b ∈ allow_list -> is_restored b = true.
Proof.
  intros Hb H. apply allow_list_inv in H as [_ H].
  unfold hex_digit in H. unfold is_restored. bprop.
  destruct (Z.ltb_spec (b / 16) 10), (Z.ltb_spec (b mod 16) 10); dlia.
Qed.

Lemma restored_octet_high b : 128 <= b < 256 -> restored_octet b = percent_octet b.
Proof.
  intros Hb. unfold restored_octet. case_bool_decide as H; [|reflexivity].
  apply allow_listed_octet in H; [|lia]. unfold is_restored in H. bprop_in H. lia.
Qed.

Lemma restore_allowed_literal c t :
  c <> PERCENT ->
  restore_allowed (c :: t) = (do more <- restore_allowed t; Ok (c :: more)).
Proof.
  intros Hc. destruct t as [|h [|l rest]]; try reflexivity.
  cbn [restore_allowed]. case_bool_decide as H; [|reflexivity].
  apply allow_list_inv in H as [H _]. contradiction.
Qed.

Lemma hex_digit_not_percent d : 0 <= d < 16 -> hex_digit d <> PERCENT.
Proof. intros H. pose proof (hex_digit_range d H). unfold PERCENT. lia. Qed.

Lemma restore_percent_octet b rest :
  0 <= b < 256 ->
  restore_allowed (percent_octet b ++ rest) =
  (do more <- restore_allowed rest; Ok (restored_octet b ++ more)).
Proof.
  intros Hb. unfold restored_octet.
  change (restore_allowed (percent_octet b ++ rest)) with
    (if bool_decide (percent_octet b ∈ allow_list) then
       do out <- decodeURIComponent (percent_octet b);
       do more <- restore_allowed rest;
       Ok (out ++ more)
     else
       do more <- restore_allowed
                    (hex_digit (b / 16) :: hex_digit (b mod 16) :: rest);
       Ok (PERCENT :: more)).
  case_bool_decide as H.
  - apply allow_listed_octet in H; [|exact Hb].
    unfold is_restored in H. bprop_in H.
    rewrite <- (app_nil_r (percent_octet b)).
    rewrite decode_single_escape by lia. reflexivity.
  - rewrite !restore_allowed_literal by (apply hex_digit_not_percent; dlia).
    destruct (restore_allowed rest); reflexivity.
Qed.

Lemma restore_escaped_octets bs rest :
  Forall (fun b => 0 <= b < 256) bs ->
  restore_allowed (flat_map percent_octet bs ++ rest) =
  (do more <- restore_allowed rest; Ok (flat_map restored_octet bs ++ more)).
Proof.
  induction 1 as [|b bs Hb _ IH]; cbn [flat_map app].
  - destruct (restore_allowed rest); reflexivity.
  - rewrite <- app_assoc, restore_percent_octet by exact Hb.
    rewrite IH. destruct (restore_allowed rest); [|reflexivity].
    rewrite <- app_assoc. reflexivity.
Qed.

(** ** UTF-8 and UTF-16 *)

Lemma utf8_octets_range cp :
  0 <= cp < 0x110000 -> Forall (fun b => 0 <= b < 256) (utf8_octets cp).
Proof.
  intros H. unfold utf8_octets.
  repeat case_if; repeat constructor; dlia.
Qed.

Lemma utf8_octets_high cp :
  0x80 <= cp < 0x110000 -> Forall (fun b => 128 <= b < 256) (utf8_octets cp).
Proof.
  intros H. unfold utf8_octets.
  repeat case_if; repeat constructor; dlia.
Qed.

Lemma flat_map_restored_high bs :
  Forall (fun b => 128 <= b < 256) bs ->
  flat_map restored_octet bs = flat_map percent_octet bs.
Proof.
  induction 1 as [|b bs Hb _ IH]; [reflexivity|].
  cbn [flat_map]. rewrite IH, restored_octet_high by exact Hb. reflexivity.
Qed.

Lemma utf16_encode_unit c : c < 0x10000 -> utf16_encode c = [c].
Proof. intros H. unfold utf16_encode. case_if; [reflexivity|lia]. Qed.

Lemma utf16_encode_pair c d :
  is_lead_surrogate c = true -> is_trail_surrogate d = true ->
  utf16_encode (pair_code_point c d) = [c; d].
Proof.
  unfold is_lead_surrogate, is_trail_surrogate, utf16_encode, pair_code_point.
  intros Hc Hd. bprop_in Hc. bprop_in Hd.
  case_if; [lia|]. f_equal; [|f_equal]; dlia.
Qed.

Lemma pair_code_point_range c d :
  is_lead_surrogate c = true -> is_trail_surrogate d = true ->
  0x10000 <= pair_code_point c d < 0x110000.
Proof.
  unfold is_lead_surrogate, is_trail_surrogate, pair_code_point.
  intros Hc Hd. bprop_in Hc. bprop_in Hd. lia.
Qed.

Lemma flat_map_cons_app {A B} (f : A -> list B) a l rest :
  flat_map f (a :: l) ++ rest = f a ++ flat_map f l ++ rest.
Proof. cbn [flat_map]. rewrite <- app_assoc. reflexivity. Qed.

(** Decoding the escapes of one code point above U+007F gives it back. *)
Lemma decode_step_escaped cp rest :
  0x80 <= cp < 0x110000 -> ~ (0xD800 <= cp <= 0xDFFF) ->
  decode_step (escape_code_point cp ++ rest) = Ok (utf16_encode cp, rest).
Proof.
  intros H Hs. unfold escape_code_point.
  pose proof (utf8_octets_range cp ltac:(lia)) as Hoct.
  unfold utf8_octets in *.
  destruct (Z.ltb_spec cp 0x80); [lia|].
  destruct (Z.ltb_spec cp 0x800); [|destruct (Z.ltb_spec cp 0x10000)].
  - apply Forall_cons in Hoct as [Hb1 Hoct].
    rewrite flat_map_cons_app.
    rewrite decode_step_escape by exact Hb1.
    replace (leading_ones (0xC0 + cp / 64)) with 2%nat
      by (unfold leading_ones; repeat case_if; dlia).
    pose proof (read_escapes_octets _ rest Hoct) as Hr.
    cbn [length] in Hr. cbv beta iota. rewrite Hr.
    unfold utf8_code_point, is_continuation.
    case_if; [repeat f_equal; dlia | exfalso; dlia].
  - apply Forall_cons in Hoct as [Hb1 Hoct].
    rewrite flat_map_cons_app.
    rewrite decode_step_escape by exact Hb1.
    replace (leading_ones (0xE0 + cp / 4096)) with 3%nat
      by (unfold leading_ones; repeat case_if; dlia).
    pose proof (read_escapes_octets _ rest Hoct) as Hr.
    cbn [length] in Hr. cbv beta iota. rewrite Hr.
    unfold utf8_code_point, is_continuation.
    case_if; [repeat f_equal; dlia | exfalso; dlia].
  - apply Forall_cons in Hoct as [Hb1 Hoct].
    rewrite flat_map_cons_app.
    rewrite decode_step_escape by exact Hb1.
    replace (leading_ones (0xF0 + cp / 262144)) with 4%nat
      by (unfold leading_ones; repeat case_if; dlia).
    pose proof (read_escapes_octets _ rest Hoct) as Hr.
    cbn [length] in Hr. cbv beta iota. rewrite Hr.
    unfold utf8_code_point, is_continuation.
    case_if; [repeat f_equal; dlia | exfalso; dlia].
Qed.

Lemma decode_step_escaped_not_nil cp rest :
  0 <= cp < 0x110000 ->
  escape_code_point cp ++ rest
  = PERCENT :: tail (escape_code_point cp ++ rest).
Proof.
  intros H. unfold escape_code_point, utf8_octets.
  repeat case_if; reflexivity.
Qed.

(** Decoding what [encodeValue] made of one code point gives it back. *)
Lemma decode_transport cp rest :
  0 <= cp < 0x110000 -> ~ (0xD800 <= cp <= 0xDFFF) ->
  decodeURIComponent (flat_map restored_octet (utf8_octets cp) ++ rest) =
  (do r <- decodeURIComponent rest; Ok (utf16_encode cp ++ r)).
Proof.
  intros H Hs. destruct (Z.ltb_spec cp 0x80) as [Hlow|Hhigh].
  - unfold utf8_octets. destruct (Z.ltb_spec cp 0x80); [|lia].
    cbn [flat_map]. rewrite app_nil_r, utf16_encode_unit by lia.
    unfold restored_octet. case_bool_decide as Hin.
    + apply allow_listed_octet in Hin; [|lia].
      unfold is_restored in Hin. bprop_in Hin.
      apply decodeURIComponent_literal. unfold PERCENT. lia.
    + apply decode_single_escape. lia.
  - rewrite flat_map_restored_high by (apply utf8_octets_high; lia).
    fold (escape_code_point cp).
    rewrite decodeURIComponent_cons.
    + rewrite decode_step_escaped by (assumption || lia). reflexivity.
    + rewrite decode_step_escaped_not_nil by lia. discriminate.
Qed.

(** ** Well-formed strings *)

(** Induction over a well-formed string, one code point at a time. *)
Lemma isWellFormed_ind (P : jsstring -> Prop) :
  P [] ->
  (forall c t,
      0 <= c < 65536 -> is_lead_surrogate c = false ->
      is_trail_surrogate c = false -> P t -> P (c :: t)) ->
  (forall c d t,
      is_lead_surrogate c = true -> is_trail_surrogate d = true ->
      P t -> P (c :: d :: t)) ->
  forall s, isWellFormed s = true -> P s.
Proof.
  intros Hnil Hunit Hpair s.
  assert (forall n s, (length s <= n)%nat -> isWellFormed s = true -> P s)
    as Hn; [|apply (Hn (length s)); lia].
  clear s. induction n as [|n IH]; intros s Hlen Hwf.
  - destruct s; [exact Hnil|simpl in Hlen; lia].
  - destruct s as [|c t]; [exact Hnil|].
    cbn [isWellFormed] in Hwf. apply andb_true_iff in Hwf as [Hc Hwf].
    bprop_in Hc. simpl in Hlen.
    destruct (is_trail_surrogate c) eqn:Ht; [discriminate|].
    destruct (is_lead_surrogate c) eqn:Hl.
    + destruct t as [|d t']; [discriminate|].
      apply andb_true_iff in Hwf as [Hd Hwf]. simpl in Hlen.
      apply Hpair; auto. apply IH; [lia|exact Hwf].
    + apply Hunit; auto. apply IH; [lia|exact Hwf].
Qed.

Lemma encodeURIComponent_wf s e :
  is_string s -> encodeURIComponent s = Ok e -> isWellFormed s = true.
Proof.
  assert (forall n s e, (length s <= n)%nat -> is_string s ->
                        encodeURIComponent s = Ok e -> isWellFormed s = true)
    as Hn; [|apply (Hn (length s))]; [|lia].
  clear s e. induction n as [|n IH]; intros s e Hlen Hs He.
  - destruct s; [reflexivity|simpl in Hlen; lia].
  - destruct s as [|c t]; [reflexivity|].
    apply Forall_cons in Hs as [Hc Hs]. simpl in Hlen.
    cbn [encodeURIComponent isWellFormed] in *.
    replace ((0 <=? c) && (c <? 65536)) with true by (symmetry; bprop; lia).
    cbn [andb].
    destruct (is_trail_surrogate c); [discriminate|].
    destruct (is_lead_surrogate c).
    + destruct t as [|d t']; [discriminate|].
      apply Forall_cons in Hs as [_ Hs]. simpl in Hlen.
      destruct (is_trail_surrogate d); [|discriminate]. cbn [andb].
      destruct (encodeURIComponent t') as [e'|] eqn:E; [|discriminate].
      apply (IH t' e'); [lia|exact Hs|exact E].
    + destruct (encodeURIComponent t) as [e'|] eqn:E;
        [|destruct (is_uri_unreserved c); discriminate].
      apply (IH t e'); [lia|exact Hs|exact E].
Qed.

(** ** The transport alphabet *)

Lemma unreserved_not_percent c : is_uri_unreserved c = true -> c <> PERCENT.
Proof. intros H ->. discriminate H. Qed.

Lemma hex_digit_unreserved d : 0 <= d < 16 -> is_uri_unreserved (hex_digit d) = true.
Proof.
  intros H. pose proof (hex_digit_range d H) as Hr.
  unfold is_uri_unreserved, is_ascii_letter, is_ascii_digit.
  apply orb_true_iff. left. bprop. lia.
Qed.

Lemma restored_octet_alphabet b :
  0 <= b < 256 ->
  Forall (fun c => in_transport_alphabet c = true) (restored_octet b).
Proof.
  intros Hb. unfold restored_octet, in_transport_alphabet.
  case_bool_decide as Hin.
  - apply allow_listed_octet in Hin; [|exact Hb].
    repeat constructor. rewrite Hin. apply orb_true_r.
  - unfold percent_octet. repeat constructor.
    all: rewrite hex_digit_unreserved by dlia; reflexivity.
Qed.

Lemma transport_alphabet bs :
  Forall (fun b => 0 <= b < 256) bs ->
  Forall (fun c => in_transport_alphabet c = true) (flat_map restored_octet bs).
Proof.
  induction 1 as [|b bs Hb _ IH]; cbn [flat_map]; [constructor|].
  apply Forall_app. split; [apply restored_octet_alphabet, Hb|exact IH].
Qed.

Lemma transport_alphabet_allowed c :
  in_transport_alphabet c = true -> is_forbidden c = false.
Proof.
  unfold in_transport_alphabet, is_forbidden, is_uri_unreserved, is_restored,
    is_white_space, is_ascii_letter, is_ascii_digit, PERCENT.
  cbn [lit String.list_ascii_of_string map existsb].
  intros H. bprop_in H. bprop. cbn in H. lia.
Qed.

(** ** The round trip of the transport codec *)

(** What [encodeValue] does to a well-formed string: escaping succeeds, the
    restored text stays in the transport alphabet, and decoding it gives the
    string back. *)
Lemma encodeValue_well_formed s :
  isWellFormed s = true ->
  exists e v,
    encodeURIComponent s = Ok e /\ restore_allowed e = Ok v
    /\ decodeURIComponent v = Ok s
    /\ Forall (fun c => in_transport_alphabet c = true) v.
Proof.
  assert (forall cp t e v,
    0 <= cp < 0x110000 -> ~ (0xD800 <= cp <= 0xDFFF) ->
    restore_allowed e = Ok v -> decodeURIComponent v = Ok t ->
    Forall (fun c => in_transport_alphabet c = true) v ->
    let v' := flat_map restored_octet (utf8_octets cp) ++ v in
    restore_allowed (escape_code_point cp ++ e) = Ok v'
    /\ decodeURIComponent v' = Ok (utf16_encode cp ++ t)
    /\ Forall (fun c => in_transport_alphabet c = true) v') as Hchunk.
  { intros cp t e v Hcp Hsur Hr Hd Ha v'. subst v'. split; [|split].
    - unfold escape_code_point.
      rewrite restore_escaped_octets, Hr by (apply utf8_octets_range, Hcp).
      reflexivity.
    - rewrite decode_transport, Hd by assumption. reflexivity.
    - apply Forall_app. split; [|exact Ha].
      apply transport_alphabet, utf8_octets_range, Hcp. }
  revert s. apply isWellFormed_ind.
  - exists [], []. repeat split; constructor.
  - intros c t Hc Hl Ht IH.
    destruct IH as (e & v & He & Hr & Hdec & Ha).
    cbn [encodeURIComponent]. rewrite Ht, Hl, He.
    destruct (is_uri_unreserved c) eqn:Hu.
    + exists (c :: e), (c :: v).
      pose proof (unreserved_not_percent c Hu) as Hp.
      rewrite restore_allowed_literal, Hr by exact Hp.
      rewrite decodeURIComponent_literal, Hdec by exact Hp.
      repeat split. constructor; [|exact Ha].
      unfold in_transport_alphabet. rewrite Hu. reflexivity.
    + unfold is_lead_surrogate, is_trail_surrogate in Hl, Ht.
      bprop_in Hl. bprop_in Ht.
      destruct (Hchunk c t e v) as (Hr' & Hd' & Ha'); try assumption; try lia.
      rewrite utf16_encode_unit in Hd' by lia. eauto 10.
  - intros c d t Hc Hd IH.
    destruct IH as (e & v & He & Hr & Hdec & Ha).
    cbn [encodeURIComponent]. rewrite Hd, He.
    replace (is_trail_surrogate c) with false; [rewrite Hc|].
    2: { unfold is_lead_surrogate, is_trail_surrogate in *. bprop_in Hc.
         symmetry. bprop. lia. }
    pose proof (pair_code_point_range c d Hc Hd) as Hrange.
    destruct (Hchunk (pair_code_point c d) t e v) as (Hr' & Hd' & Ha');
      try assumption; try lia.
    rewrite utf16_encode_pair in Hd' by assumption. eauto 10.
Qed.

Lemma round_trip_well_formed x :
  isWellFormed x = true ->
  exists e, encodeValue x = Ok e /\ decodeValue e = Ok x.
Proof.
  intros Hwf. destruct (encodeValue_well_formed x Hwf) as (e & v & He & Hr & Hd & _).
  exists v. unfold encodeValue, decodeValue. rewrite He. auto.
Qed.

(** C3 (as stated, refuted). A string made of one unpaired surrogate holds
    no separator character, yet [encodeValue] raises a URIError on it, so
    nothing is decoded back. *)
Lemma lone_surrogate_not_encoded :
  is_string [0xD800]
  /\ Forall (fun c => is_forbidden c = false) [0xD800]
  /\ encodeValue [0xD800] = Err URIError
  /\ (do e <- encodeValue [0xD800]; decodeValue e) <> Ok [0xD800].
Proof.
  split; [repeat constructor; lia|].
  split; [repeat constructor|].
  split; [reflexivity|discriminate].
Qed.

(** C8. For every string [x] that [encodeValue] accepts, the result holds no
    comma, semicolon, equals sign or white space: it is made of unreserved
    characters, [%] and the five restored characters.  The escapes restored
    are exactly those of [{], [}], [:], [[] and []], none of which is
    forbidden. *)
Theorem encodeValue_channel_safe (x y : jsstring) :
  is_string x ->
  encodeValue x = Ok y ->
  Forall (fun c => is_forbidden c = false) y
  /\ Forall (fun c => in_transport_alphabet c = true) y
  /\ map decodeURIComponent allow_list
     = [Ok (lit "{"); Ok (lit "}"); Ok (lit ":"); Ok (lit "["); Ok (lit "]")]
  /\ Forall (fun c => is_restored c = true /\ is_forbidden c = false)
            (lit "{}:[]").
Proof.
  intros Hx Hy. unfold encodeValue in Hy.
  destruct (encodeURIComponent x) as [e|] eqn:He; [|discriminate].
  apply encodeURIComponent_wf in He as Hwf; [|exact Hx].
  destruct (encodeValue_well_formed x Hwf) as (e' & v & He' & Hr & _ & Ha).
  rewrite He in He'. injection He' as <-. rewrite Hy in Hr. injection Hr as <-.
  split; [|split; [exact Ha|split; [reflexivity|repeat constructor]]].
  eapply Forall_impl; [exact Ha|]. apply transport_alphabet_allowed.
Qed.

Lemma encodeValue_channel_safe_witness :
  Forall (fun c => is_forbidden c = false) (lit "{a:[1%2C%202]%3B%3D}").
Proof.
  apply (encodeValue_channel_safe (lit "{a:[1, 2];=}")).
  - repeat constructor; lia.
  - reflexivity.
Defined.

(** ** Locating a cookie *)

Lemma begins_with_name name cookie :
  take (length name + 1) cookie = name ++ lit "="
  <-> (name ++ lit "=") `prefix_of` cookie.
Proof.
  split.
  - intros H. exists (drop (length name + 1) cookie).
    rewrite <- H. symmetry. apply take_drop.
  - intros [k ->]. apply take_app_length'.
    rewrite length_app. reflexivity.
Qed.

Lemma find_cookie_None name cookies :
  find_cookie name cookies = None
  <-> ~ Exists (fun piece => (name ++ lit "=") `prefix_of` trim piece) cookies.
Proof.
  induction cookies as [|piece cookies IH]; cbn [find_cookie].
  - split; [intros _ H; inversion H|reflexivity].
  - rewrite Exists_cons. case_bool_decide as H.
    + apply begins_with_name in H. split; [discriminate|tauto].
    + rewrite begins_with_name in H. rewrite IH. tauto.
Qed.

Lemma find_cookie_empty_doc name : find_cookie name (split_semicolon []) = None.
Proof.
  apply find_cookie_None. intros H. apply Exists_cons in H as [H|H].
  - destruct H as [k H]. destruct name; discriminate H.
  - inversion H.
Qed.

Lemma cookie_read_missing self doc name opts :
  find_cookie name (split_semicolon doc) = None ->
  cookie_read self doc name opts = Ok JNull.
Proof.
  intros H. unfold cookie_read. destruct doc; [reflexivity|].
  rewrite H. reflexivity.
Qed.

Lemma cookie_read_located self doc name opts raw :
  find_cookie name (split_semicolon doc) = Some raw ->
  cookie_read self doc name opts =
  (do cookieValue <- decodeValue raw;
   match scramble_key (scramble opts) with
   | Some _ =>
       do cookieValue <- unscramble_value self cookieValue;
       Ok (JString cookieValue)
   | None => Ok (JString cookieValue)
   end).
Proof.
  intros H. unfold cookie_read. destruct doc as [|c doc].
  - rewrite find_cookie_empty_doc in H. discriminate.
  - rewrite H. reflexivity.
Qed.

(** [decodeURIComponent] raises nothing but a URIError. *)
Lemma decode_loop_error fuel s e : decode_loop fuel s = Err e -> e = URIError.
Proof.
  assert (forall s e, read_escape s = Err e -> e = URIError) as Hesc.
  { intros s0 e0. unfold read_escape.
    destruct s0 as [|p [|h [|l t]]]; try (intros [= <-]; reflexivity).
    destruct (p =? PERCENT); [|intros [= <-]; reflexivity].
    destruct (hex_value h), (hex_value l); intros [= <-]; reflexivity. }
  assert (forall n s e, read_escapes n s = Err e -> e = URIError) as Hescs.
  { induction n as [|n IH]; intros s0 e0; cbn [read_escapes]; [discriminate|].
    destruct (read_escape s0) as [[b s1]|e1] eqn:E1.
    - destruct (read_escapes n s1) as [[bs s2]|e2] eqn:E2; [discriminate|].
      intros [= <-]. apply (IH s1), E2.
    - intros [= <-]. apply (Hesc s0 e1), E1. }
  assert (forall s e, decode_step s = Err e -> e = URIError) as Hstep.
  { intros s0 e0. unfold decode_step. destruct s0 as [|c t]; [discriminate|].
    destruct (negb (c =? PERCENT)); [discriminate|].
    destruct (read_escape (c :: t)) as [[b s1]|e1] eqn:E1.
    - destruct (leading_ones b) as [|[|[|[|[|n]]]]];
        try discriminate; try (intros [= <-]; reflexivity).
      all: match goal with
           | |- context [read_escapes ?k ?s] =>
               destruct (read_escapes k s) as [[bs s2]|e2] eqn:E2;
               [destruct (utf8_code_point (_ :: bs));
                [discriminate|intros [= <-]; reflexivity]
               |intros [= <-]; apply (Hescs k s), E2]
           end.
    - intros [= <-]. apply (Hesc (c :: t) e1), E1. }
  revert s. induction fuel as [|fuel IH]; intros s.
  - destruct s; [discriminate|]. intros [= <-]. reflexivity.
  - destruct s as [|c t]; [discriminate|]. cbn [decode_loop].
    destruct (decode_step (c :: t)) as [[out rest]|e1] eqn:E1.
    + destruct (decode_loop fuel rest) as [r|e2] eqn:E2; [discriminate|].
      intros [= <-]. apply (IH rest), E2.
    + intros [= <-]. apply (Hstep (c :: t)), E1.
Qed.

Lemma decodeValue_error s e : decodeValue s = Err e -> e = URIError.
Proof. apply decode_loop_error. Qed.

(** ** Reads with the scramble option *)

(** Once a value has been located and decoded, the scramble branch reads
    [self.scramblers] with [self] undefined. *)
Lemma scrambled_read_located doc name opts raw v :
  find_cookie name (split_semicolon doc) = Some raw ->
  decodeValue raw = Ok v ->
  scramble_key (scramble opts) <> None ->
  cookie_read cookie_local_at_entry doc name opts = Err TypeError.
Proof.
  intros Hf Hd Hs.
  rewrite (cookie_read_located _ doc name opts raw Hf), Hd.
  destruct (scramble_key (scramble opts)); [reflexivity|contradiction].
Qed.

(** C2. In read mode with the scramble option, when the value found carries
    a tag (or, without a tag, the fallback name [rot13]) that is not
    registered in [scramblers], the call raises an error and returns
    nothing; [get] and [getJson] pass the error on.  The error is a
    TypeError: the lookup [self.scramblers[prefix]] itself fails, [self]
    being undefined inside the accessor. *)
Theorem unknown_scrambler_aborts_read
    (utc : Z -> jsstring) (parse : jsstring -> option json)
    (self : registry) (doc name : jsstring) (opts : options)
    (raw v : jsstring) :
  find_cookie name (split_semicolon doc) = Some raw ->
  decodeValue raw = Ok v ->
  scramble_key (scramble opts) <> None ->
  scramblers self !! effective_prefix v = None ->
  cookie utc self doc name JUndefined opts = Err TypeError
  /\ get utc self doc name opts = Err TypeError
  /\ getJson utc parse self doc name opts = Err TypeError.
Proof.
  intros Hfind Hdec Hscr _.
  unfold get, getJson, cookie. cbv zeta.
  rewrite (scrambled_read_located doc name opts raw v Hfind Hdec Hscr). auto.
Qed.

Lemma unknown_scrambler_aborts_read_witness :
  cookie (fun _ => []) initial_registry (lit "b=1; a=%5Bxyz%5Dfhcre")
    (lit "a") JUndefined scramble_true = Err TypeError
  /\ get (fun _ => []) initial_registry (lit "b=1; a=%5Bxyz%5Dfhcre")
       (lit "a") scramble_true = Err TypeError
  /\ getJson (fun _ => []) (fun _ => None) initial_registry
       (lit "b=1; a=%5Bxyz%5Dfhcre") (lit "a") scramble_true = Err TypeError.
Proof.
  apply (unknown_scrambler_aborts_read (fun _ => []) (fun _ => None)
           initial_registry (lit "b=1; a=%5Bxyz%5Dfhcre") (lit "a")
           scramble_true (lit "%5Bxyz%5Dfhcre") (lit "[xyz]fhcre")).
  - reflexivity.
  - reflexivity.
  - discriminate.
  - reflexivity.
Defined.

(** C7 (the code at the failing input). In read mode with the scramble
    option, a value without a tag is not decoded as [rot13]: the fallback
    name is chosen, but the lookup [self.scramblers[prefix]] raises a
    TypeError, [self] being undefined inside the accessor, although [rot13]
    is registered on the function object.  No value is returned, so in
    particular not the letter rotation of the value. *)
Theorem untagged_scrambled_read_raises
    (utc : Z -> jsstring) (self : registry) (doc name : jsstring)
    (opts : options) (raw v : jsstring) (s : scrambler) :
  find_cookie name (split_semicolon doc) = Some raw ->
  decodeValue raw = Ok v ->
  scramble_key (scramble opts) <> None ->
  scramblePrefixGet v = [] ->
  scramblers self !! lit "rot13" = Some s ->
  effective_prefix v = lit "rot13"
  /\ cookie utc self doc name JUndefined opts = Err TypeError
  /\ get utc self doc name opts = Err TypeError
  /\ get utc self doc name opts <> Ok (rot13 (JString v)).
Proof.
  intros Hfind Hdec Hscr Htag _.
  split; [unfold effective_prefix; rewrite Htag; reflexivity|].
  unfold get, cookie. cbv zeta.
  rewrite (scrambled_read_located doc name opts raw v Hfind Hdec Hscr).
  split; [reflexivity|]. split; [reflexivity|discriminate].
Qed.

Lemma untagged_scrambled_read_raises_witness :
  get (fun _ => []) initial_registry (lit "b=1; a=fhcre%20123") (lit "a")
    scramble_true = Err TypeError.
Proof.
  apply (untagged_scrambled_read_raises (fun _ => []) initial_registry
           (lit "b=1; a=fhcre%20123") (lit "a") scramble_true
           (lit "fhcre%20123") (lit "fhcre 123") rot13_scrambler).
  - reflexivity.
  - reflexivity.
  - discriminate.
  - reflexivity.
  - reflexivity.
Defined.

(** ** Reads that find nothing *)

(** C9. When no cookie of the name is found, no error is raised and each
    reader returns its sentinel: [get] the empty string, [getJson] an empty
    object, [exists] false.  [getJson] also returns an empty object when a
    value was read that [JSON.parse] rejects. *)
Theorem missing_entry_sentinels
    (utc : Z -> jsstring) (parse : jsstring -> option json)
    (self : registry) (doc name : jsstring) (opts : options) :
  (~ has_cookie doc name ->
   get utc self doc name opts = Ok []
   /\ getJson utc parse self doc name opts = Ok (JsonObject [])
   /\ cookie_exists utc self doc name = Ok false)
  /\ (forall v,
        cookie utc self doc name JUndefined opts = Ok (JString v, None) ->
        parse v = None ->
        getJson utc parse self doc name opts = Ok (JsonObject [])).
Proof.
  split.
  - intros H. apply find_cookie_None in H.
    unfold get, getJson, cookie_exists, cookie. cbv zeta.
    rewrite !(cookie_read_missing _ doc name _ H). auto.
  - intros v Hv Hp. unfold getJson. rewrite Hv, Hp. reflexivity.
Qed.

Lemma missing_entry_sentinels_witness :
  (get (fun _ => []) initial_registry (lit "b=1; aa=2") (lit "a") scramble_true
   = Ok []
   /\ getJson (fun _ => []) (fun _ => None) initial_registry (lit "b=1; aa=2")
        (lit "a") scramble_true = Ok (JsonObject [])
   /\ cookie_exists (fun _ => []) initial_registry (lit "b=1; aa=2") (lit "a")
      = Ok false)
  /\ getJson (fun _ => []) (fun _ => None) initial_registry (lit "u=%7Bfirst")
       (lit "u") no_options = Ok (JsonObject []).
Proof.
  split.
  - apply (proj1 (missing_entry_sentinels (fun _ => []) (fun _ => None)
                    initial_registry (lit "b=1; aa=2") (lit "a") scramble_true)).
    unfold has_cookie. intros H. apply find_cookie_None in H; [exact H|].
    reflexivity.
  - apply (proj2 (missing_entry_sentinels (fun _ => []) (fun _ => None)
                    initial_registry (lit "u=%7Bfirst") (lit "u") no_options)
             (lit "{first")); reflexivity.
Defined.

(** ** [exists] *)

Lemma cookie_exists_spec utc self doc name :
  cookie_exists utc self doc name =
  match find_cookie name (split_semicolon doc) with
  | None => Ok false
  | Some raw => do _ <- decodeValue raw; Ok true
  end.
Proof.
  unfold cookie_exists, cookie. cbv zeta.
  destruct (find_cookie name (split_semicolon doc)) as [raw|] eqn:H.
  - rewrite (cookie_read_located _ doc name no_options raw H).
    cbn [scramble_key scramble no_options].
    destruct (decodeValue raw); reflexivity.
  - rewrite (cookie_read_missing _ doc name no_options H). reflexivity.
Qed.

(** C10 (as stated, refuted). A stored value that is not a valid percent
    encoding makes [exists] raise a URIError instead of returning a
    boolean. *)
Lemma exists_raises_on_malformed_value :
  cookie_exists (fun _ => []) initial_registry (lit "b=1; a=100%") (lit "a")
  = Err URIError.
Proof. reflexivity. Qed.

(** C10 (amended). [exists] never unscrambles and never raises the
    unknown-algorithm error: its result does not depend on the registry, and
    is [false] when no cookie of the name is found, [true] when one is found
    whose value is a valid percent encoding (whatever tag it carries), and a
    URIError from the transport decoding otherwise. *)
Theorem exists_never_unscrambles
    (utc : Z -> jsstring) (self self' : registry) (doc name : jsstring) :
  cookie_exists utc self doc name
  = match find_cookie name (split_semicolon doc) with
    | None => Ok false
    | Some raw => do _ <- decodeValue raw; Ok true
    end
  /\ cookie_exists utc self doc name = cookie_exists utc self' doc name
  /\ (cookie_exists utc self doc name = Ok true
      \/ cookie_exists utc self doc name = Ok false
      \/ cookie_exists utc self doc name = Err URIError)
  /\ (cookie_exists utc self doc name = Ok false <-> ~ has_cookie doc name).
Proof.
  split; [apply cookie_exists_spec|].
  split; [rewrite !cookie_exists_spec; reflexivity|].
  rewrite cookie_exists_spec. unfold has_cookie.
  rewrite <- find_cookie_None.
  destruct (find_cookie name (split_semicolon doc)) as [raw|]; [|tauto].
  destruct (decodeValue raw) as [v|e] eqn:E.
  - split; [auto|]. split; discriminate.
  - apply decodeValue_error in E as ->. split; [auto|]. split; discriminate.
Qed.

Lemma exists_never_unscrambles_witness :
  cookie_exists (fun _ => []) initial_registry
    (lit "b=1; a=%5Bnope%5Dfhcre") (lit "a") = Ok true.
Proof.
  rewrite (proj1 (exists_never_unscrambles (fun _ => []) initial_registry
                    initial_registry (lit "b=1; a=%5Bnope%5Dfhcre") (lit "a"))).
  reflexivity.
Defined.

Example read_json_text utc :
  get utc initial_registry (lit "u={%22first%22:%22Joe%22}") (lit "u") no_options
  = Ok (lit "{" ++ [34] ++ lit "first" ++ [34] ++ lit ":" ++ [34]
          ++ lit "Joe" ++ [34] ++ lit "}").
Proof. reflexivity. Qed.

Example delete_expires utc :
  deleteCookie utc initial_registry [] (lit "a") no_options
  = Ok (JString [], Some (lit "a=; expires=" ++ utc (-1) ++ lit "; path=/")).
Proof. reflexivity. Qed.

(** * Further properties of the code *)

(** ** [trim] *)

Lemma skip_white_space_split s :
  exists lead,
    s = lead ++ skip_white_space s
    /\ forallb is_white_space lead = true
    /\ starts_white (skip_white_space s) = false.
Proof.
  induction s as [|c s (lead & Hs & Hl & Hh)]; [exists []; auto|].
  cbn [skip_white_space]. destruct (is_white_space c) eqn:Hc.
  - exists (c :: lead). cbn [app forallb]. rewrite Hc, Hl, <- Hs. auto.
  - exists []. cbn. auto.
Qed.

Lemma skip_white_space_id s : starts_white s = false -> skip_white_space s = s.
Proof. destruct s as [|c s]; [reflexivity|]. cbn. intros ->. reflexivity. Qed.

Lemma starts_white_app a b :
  a <> [] -> starts_white (a ++ b) = starts_white a.
Proof. destruct a; [contradiction|reflexivity]. Qed.

Lemma forallb_rev {A} (f : A -> bool) l : forallb f (rev l) = forallb f l.
Proof.
  induction l as [|x l IH]; [reflexivity|].
  cbn [rev forallb]. rewrite forallb_app, IH. cbn. rewrite andb_true_r.
  apply andb_comm.
Qed.

Lemma trim_id s :
  starts_white s = false -> ends_white s = false -> trim s = s.
Proof.
  intros Hs He. unfold trim. rewrite (skip_white_space_id s Hs).
  rewrite (skip_white_space_id (rev s) He). apply rev_involutive.
Qed.

Lemma trim_decompose (s : jsstring) :
  exists lead trail,
    s = lead ++ trim s ++ trail
    /\ forallb is_white_space lead = true
    /\ forallb is_white_space trail = true
    /\ starts_white (trim s) = false
    /\ ends_white (trim s) = false
    /\ trim (trim s) = trim s.
Proof.
  destruct (skip_white_space_split s) as (lead & Hs & Hlead & Ha).
  set (a := skip_white_space s) in *.
  destruct (skip_white_space_split (rev a)) as (tr & Hr & Htr & Hb).
  assert (trim s = rev (skip_white_space (rev a))) as Ht by reflexivity.
  set (b := skip_white_space (rev a)) in *.
  assert (a = rev b ++ rev tr) as Hab.
  { rewrite <- rev_app_distr, <- Hr, rev_involutive. reflexivity. }
  assert (starts_white (rev b) = false) as Hstart.
  { destruct (rev b) as [|c t] eqn:E; [reflexivity|].
    rewrite Hab in Ha. rewrite starts_white_app in Ha by discriminate.
    exact Ha. }
  assert (ends_white (rev b) = false) as Hend.
  { unfold ends_white. rewrite rev_involutive. exact Hb. }
  exists lead, (rev tr). rewrite Ht.
  split; [rewrite <- Hab; exact Hs|].
  split; [exact Hlead|]. split; [rewrite forallb_rev; exact Htr|].
  split; [exact Hstart|]. split; [exact Hend|].
  apply trim_id; assumption.
Qed.

(** X1. [trim] removes a run of white space at each end and nothing else:
    the input is white space, then the result, then white space; the result
    neither starts nor ends with white space; trimming twice is trimming
    once. *)
Theorem trim_spec (s : jsstring) :
  exists lead trail,
    s = lead ++ trim s ++ trail
    /\ forallb is_white_space lead = true
    /\ forallb is_white_space trail = true
    /\ starts_white (trim s) = false
    /\ ends_white (trim s) = false
    /\ trim (trim s) = trim s.
Proof. apply trim_decompose. Qed.

(** ** The loop over the pieces of [document.cookie] *)

Lemma begins_with_name_drop name v cookie :
  cookie = name ++ lit "=" ++ v ->
  take (length name + 1) cookie = name ++ lit "="
  /\ drop (length name + 1) cookie = v.
Proof.
  intros ->. rewrite app_assoc. split.
  - apply take_app_length'. rewrite length_app. reflexivity.
  - apply drop_app_length'. rewrite length_app. reflexivity.
Qed.

Lemma find_cookie_Some_iff (name v : jsstring) (cookies : list jsstring) :
  find_cookie name cookies = Some v
  <-> exists before piece after,
        cookies = before ++ piece :: after
        /\ Forall (fun p => ~ names name p) before
        /\ trim piece = name ++ lit "=" ++ v.
Proof.
  unfold names. split.
  - induction cookies as [|p cookies IH]; cbn [find_cookie]; [discriminate|].
    case_bool_decide as H.
    + intros [= <-]. exists [], p, cookies. repeat split; [constructor|].
      rewrite app_assoc, <- H. symmetry. apply take_drop.
    + intros Hf. destruct (IH Hf) as (before & piece & after & -> & Hb & Hp).
      exists (p :: before), piece, after. repeat split; [|exact Hp].
      constructor; [|exact Hb]. rewrite <- begins_with_name. exact H.
  - intros (before & piece & after & -> & Hb & Hp).
    induction Hb as [|p before Hn _ IH]; cbn [app find_cookie].
    + destruct (begins_with_name_drop name v (trim piece) Hp) as [Ht Hd].
      rewrite Ht, Hd. rewrite bool_decide_eq_true_2 by reflexivity.
      reflexivity.
    + rewrite <- begins_with_name in Hn.
      rewrite bool_decide_eq_false_2 by exact Hn. exact IH.
Qed.

(** X2. The loop returns the value of the first piece that, once trimmed,
    begins with [name=], and only of that one: [find_cookie] gives [v]
    exactly when the pieces are some pieces that do not name [name], then a
    piece whose trimmed text is [name=v], then anything. *)
Theorem find_cookie_first_match (name v : jsstring) (cookies : list jsstring) :
  find_cookie name cookies = Some v
  <-> exists before piece after,
        cookies = before ++ piece :: after
        /\ Forall (fun p => ~ names name p) before
        /\ trim piece = name ++ lit "=" ++ v.
Proof. apply find_cookie_Some_iff. Qed.

Lemma find_cookie_first_match_witness :
  find_cookie (lit "a") [lit "ab=0"; lit " a=1 "; lit "a=2"] = Some (lit "1").
Proof.
  apply (proj2 (find_cookie_first_match (lit "a") (lit "1")
                  [lit "ab=0"; lit " a=1 "; lit "a=2"])).
  exists [lit "ab=0"], (lit " a=1 "), [lit "a=2"].
  split; [reflexivity|]. split; [|reflexivity].
  repeat constructor. unfold names. intros [k H]. discriminate H.
Defined.

(** ** Reading a cookie jar *)

Lemma split_semicolon_not_nil s : split_semicolon s <> [].
Proof.
  destruct s as [|c s]; [discriminate|]. cbn [split_semicolon].
  destruct (c =? 59); [discriminate|].
  destruct (split_semicolon s); discriminate.
Qed.

Lemma split_semicolon_app a b :
  split_semicolon (a ++ 59 :: b) = split_semicolon a ++ split_semicolon b.
Proof.
  induction a as [|c a IH]; [reflexivity|].
  cbn [app split_semicolon]. rewrite IH.
  destruct (c =? 59); [reflexivity|].
  pose proof (split_semicolon_not_nil a) as Hne.
  destruct (split_semicolon a); [contradiction|reflexivity].
Qed.

Lemma split_semicolon_free s : semicolon_free s -> split_semicolon s = [s].
Proof.
  induction 1 as [|c s Hc _ IH]; [reflexivity|].
  cbn [split_semicolon]. rewrite IH.
  destruct (Z.eqb_spec c 59); [contradiction|reflexivity].
Qed.

Lemma split_cookie_jar p ps :
  Forall semicolon_free (p :: ps) ->
  split_semicolon (cookie_jar (p :: ps)) = p :: map (fun q => 32 :: q) ps.
Proof.
  revert p. induction ps as [|q ps IH]; intros p Hall.
  - apply Forall_cons in Hall as [Hp _]. cbn [cookie_jar flat_map map].
    rewrite app_nil_r. apply split_semicolon_free, Hp.
  - apply Forall_cons in Hall as [Hp Hall].
    apply Forall_cons in Hall as [Hq Hps].
    change (cookie_jar (p :: q :: ps))
      with (p ++ 59 :: cookie_jar ((32 :: q) :: ps)).
    rewrite split_semicolon_app, (split_semicolon_free p Hp), IH.
    + reflexivity.
    + constructor; [|exact Hps]. constructor; [discriminate|exact Hq].
Qed.

Lemma trim_leading_space p : trim (32 :: p) = trim p.
Proof. reflexivity. Qed.

Lemma find_cookie_trim_ext name c1 c2 :
  map trim c1 = map trim c2 -> find_cookie name c1 = find_cookie name c2.
Proof.
  revert c2. induction c1 as [|p c1 IH]; intros [|q c2]; try discriminate.
  - reflexivity.
  - cbn [map find_cookie]. intros [= Hp Hrest].
    rewrite Hp, (IH c2 Hrest). reflexivity.
Qed.

Lemma find_cookie_jar name pairs :
  Forall semicolon_free pairs ->
  find_cookie name (split_semicolon (cookie_jar pairs)) = find_cookie name pairs.
Proof.
  intros Hall. destruct pairs as [|p ps].
  - apply find_cookie_empty_doc.
  - rewrite (split_cookie_jar p ps Hall). apply find_cookie_trim_ext.
    cbn [map]. f_equal. rewrite map_map. apply map_ext. intros q.
    apply trim_leading_space.
Qed.

Lemma trim_pair name v :
  starts_white name = false -> ends_white v = false ->
  trim (name ++ lit "=" ++ v) = name ++ lit "=" ++ v.
Proof.
  intros Hn Hv. apply trim_id.
  - destruct name; [reflexivity|exact Hn].
  - unfold ends_white in *. rewrite !rev_app_distr.
    destruct (rev v); [reflexivity|exact Hv].
Qed.

Lemma find_cookie_in_jar name v before after :
  Forall semicolon_free (before ++ (name ++ lit "=" ++ v) :: after) ->
  Forall (fun p => ~ names name p) before ->
  starts_white name = false -> ends_white v = false ->
  find_cookie name
    (split_semicolon (cookie_jar (before ++ (name ++ lit "=" ++ v) :: after)))
  = Some v.
Proof.
  intros Hall Hb Hn Hv. rewrite (find_cookie_jar name _ Hall).
  apply find_cookie_Some_iff.
  exists before, (name ++ lit "=" ++ v), after.
  split; [reflexivity|]. split; [exact Hb|]. apply trim_pair; assumption.
Qed.

Lemma get_located utc self doc name raw :
  find_cookie name (split_semicolon doc) = Some raw ->
  get utc self doc name no_options = decodeValue raw.
Proof.
  intros H. unfold get, cookie. cbv zeta.
  rewrite (cookie_read_located _ doc name no_options raw H).
  cbn [scramble_key scramble no_options].
  destruct (decodeValue raw); reflexivity.
Qed.

(** X3. In a cookie text of [name=value] pairs joined by ["; "], reading
    [name] without options gives the transport-decoded value of the first
    pair of that name (and the error of the decoding if it has one);
    [exists] answers true when that value decodes.  The pairs hold no
    semicolon, the name does not begin and the value does not end with
    white space. *)
Theorem get_from_jar
    (utc : Z -> jsstring) (self : registry) (name v : jsstring)
    (before after : list jsstring) :
  Forall semicolon_free (before ++ (name ++ lit "=" ++ v) :: after) ->
  Forall (fun p => ~ names name p) before ->
  starts_white name = false ->
  ends_white v = false ->
  let doc := cookie_jar (before ++ (name ++ lit "=" ++ v) :: after) in
  get utc self doc name no_options = decodeValue v
  /\ cookie_exists utc self doc name = (do _ <- decodeValue v; Ok true).
Proof.
  intros Hall Hb Hn Hv doc.
  pose proof (find_cookie_in_jar name v before after Hall Hb Hn Hv) as Hf.
  fold doc in Hf. split.
  - apply get_located, Hf.
  - rewrite cookie_exists_spec, Hf. reflexivity.
Qed.

Lemma get_from_jar_witness :
  get (fun _ => []) initial_registry (lit "ab=0; a=x%20y; a=2") (lit "a")
    no_options = Ok (lit "x y").
Proof.
  apply (get_from_jar (fun _ => []) initial_registry (lit "a") (lit "x%20y")
           [lit "ab=0"] [lit "a=2"]).
  - repeat constructor; discriminate.
  - repeat constructor. unfold names. intros [k H]. discriminate H.
  - reflexivity.
  - reflexivity.
Defined.

(** ** Errors of the transport encoding *)

Lemma encodeURIComponent_error s e : encodeURIComponent s = Err e -> e = URIError.
Proof.
  assert (forall n s, (length s <= n)%nat ->
                      encodeURIComponent s = Err e -> e = URIError) as Hn;
    [|apply (Hn (length s)); lia].
  clear s. induction n as [|n IH]; intros s Hlen.
  - destruct s; [discriminate|simpl in Hlen; lia].
  - destruct s as [|c t]; [discriminate|]. simpl in Hlen.
    cbn [encodeURIComponent].
    destruct (is_trail_surrogate c); [intros [= <-]; reflexivity|].
    destruct (is_lead_surrogate c).
    + destruct t as [|d t']; [intros [= <-]; reflexivity|]. simpl in Hlen.
      destruct (is_trail_surrogate d); [|intros [= <-]; reflexivity].
      destruct (encodeURIComponent t') as [r|e'] eqn:E; [discriminate|].
      intros [= <-]. apply (IH t'); [lia|exact E].
    + destruct (encodeURIComponent t) as [r|e'] eqn:E;
        [destruct (is_uri_unreserved c); discriminate|].
      destruct (is_uri_unreserved c); intros [= <-]; apply (IH t); (lia || exact E).
Qed.

Lemma restore_allowed_unfold c h l rest :
  restore_allowed (c :: h :: l :: rest) =
  if bool_decide ([c; h; l] ∈ allow_list) then
    do out <- decodeURIComponent [c; h; l];
    do more <- restore_allowed rest;
    Ok (out ++ more)
  else
    do more <- restore_allowed (h :: l :: rest); Ok (c :: more).
Proof. reflexivity. Qed.

Lemma restore_allowed_error s e : restore_allowed s = Err e -> e = URIError.
Proof.
  assert (forall n s, (length s <= n)%nat ->
                      restore_allowed s = Err e -> e = URIError) as Hn;
    [|apply (Hn (length s)); lia].
  clear s. induction n as [|n IH]; intros s Hlen.
  - destruct s; [discriminate|simpl in Hlen; lia].
  - destruct s as [|c [|h [|l rest]]]; try discriminate; simpl in Hlen.
    rewrite restore_allowed_unfold. case_bool_decide.
    + destruct (decodeURIComponent [c; h; l]) as [out|e1] eqn:E1.
      * destruct (restore_allowed rest) as [more|e2] eqn:E2; [discriminate|].
        intros [= <-]. apply (IH rest); [lia|exact E2].
      * intros [= <-]. apply (decode_loop_error _ _ _ E1).
    + destruct (restore_allowed (h :: l :: rest)) as [more|e2] eqn:E2;
        [discriminate|].
      intros [= <-]. apply (IH (h :: l :: rest)); [simpl; lia|exact E2].
Qed.

Lemma encodeValue_error x e : encodeValue x = Err e -> e = URIError.
Proof.
  unfold encodeValue. destruct (encodeURIComponent x) as [r|e1] eqn:E.
  - apply restore_allowed_error.
  - intros [= <-]. apply (encodeURIComponent_error x), E.
Qed.

Lemma encodeValue_wf x e : is_string x -> encodeValue x = Ok e -> isWellFormed x = true.
Proof.
  intros Hx. unfold encodeValue.
  destruct (encodeURIComponent x) as [r|] eqn:E; [|discriminate].
  intros _. apply (encodeURIComponent_wf x r Hx E).
Qed.

Lemma encodeValue_decodes x e :
  is_string x -> encodeValue x = Ok e ->
  decodeValue e = Ok x /\ Forall (fun c => in_transport_alphabet c = true) e.
Proof.
  intros Hx He. pose proof (encodeValue_wf x e Hx He) as Hwf.
  destruct (encodeValue_well_formed x Hwf) as (r & v & Hr & Hv & Hd & Ha).
  unfold encodeValue in He. rewrite Hr, Hv in He. injection He as <-. auto.
Qed.

Lemma isWellFormed_is_string s : isWellFormed s = true -> is_string s.
Proof.
  revert s. apply isWellFormed_ind.
  - constructor.
  - intros c t Hc _ _ IH. constructor; assumption.
  - intros c d t Hc Hd IH.
    unfold is_lead_surrogate, is_trail_surrogate in *.
    bprop_in Hc. bprop_in Hd. repeat constructor; try lia. exact IH.
Qed.

(** C3 (amended). For every string [x] without separator characters: when
    [x] is well formed (no unpaired surrogate), [encodeValue x] succeeds and
    [decodeValue] gives [x] back; when [x] has an unpaired surrogate,
    [encodeValue x] raises a URIError. *)
Theorem transport_round_trip (x : jsstring) :
  is_string x ->
  Forall (fun c => is_forbidden c = false) x ->
  (isWellFormed x = true
   /\ exists e, encodeValue x = Ok e /\ decodeValue e = Ok x)
  \/ (isWellFormed x = false /\ encodeValue x = Err URIError).
Proof.
  intros Hx _. destruct (isWellFormed x) eqn:Hwf.
  - left. split; [reflexivity|]. apply round_trip_well_formed, Hwf.
  - right. split; [reflexivity|].
    destruct (encodeValue x) as [e|e] eqn:He.
    + rewrite (encodeValue_wf x e Hx He) in Hwf. discriminate.
    + apply encodeValue_error in He as ->. reflexivity.
Qed.

Lemma transport_round_trip_witness :
  (exists e,
     encodeValue (lit "{a:[1]}" ++ [0xE9; 0x20AC; 0xD83D; 0xDE00]) = Ok e
     /\ decodeValue e = Ok (lit "{a:[1]}" ++ [0xE9; 0x20AC; 0xD83D; 0xDE00]))
  /\ encodeValue [0x61; 0xDE00; 0xD83D] = Err URIError.
Proof.
  split.
  - destruct (transport_round_trip
                (lit "{a:[1]}" ++ [0xE9; 0x20AC; 0xD83D; 0xDE00]))
      as [[_ H]|[H _]].
    + repeat constructor; lia.
    + repeat constructor.
    + exact H.
    + discriminate H.
  - destruct (transport_round_trip [0x61; 0xDE00; 0xD83D]) as [[H _]|[_ H]].
    + repeat constructor; lia.
    + repeat constructor.
    + discriminate H.
    + exact H.
Defined.

(** ** Write mode *)

Lemma cookie_write_unfold utc self name value opts :
  cookie_write utc self name value opts =
  (do stored <-
     match scramble_key (scramble opts) with
     | Some key => scramble_value self key value
     | None => Ok value
     end;
   do encoded <- encodeValue stored;
   Ok (stored, name ++ lit "=" ++ encoded ++ attributes utc opts)).
Proof.
  unfold cookie_write, attributes.
  destruct (match scramble_key (scramble opts) with
            | Some key => scramble_value self key value
            | None => Ok value
            end) as [stored|]; [|reflexivity].
  destruct (encodeValue stored) as [encoded|]; reflexivity.
Qed.

Lemma transport_text_fits_pair e :
  Forall (fun c => in_transport_alphabet c = true) e ->
  semicolon_free e /\ ends_white e = false /\ starts_white e = false.
Proof.
  intros Ha.
  assert (Forall (fun c => c <> 59 /\ is_white_space c = false) e) as H.
  { eapply Forall_impl; [exact Ha|]. intros c Hc.
    apply transport_alphabet_allowed in Hc. unfold is_forbidden in Hc.
    bprop_in Hc. split; [lia|tauto]. }
  split; [|split].
  - eapply Forall_impl; [exact H|]. intros c [Hc _]. exact Hc.
  - unfold ends_white. apply Forall_rev in H.
    destruct (rev e) as [|c t]; [reflexivity|].
    apply Forall_cons in H as [[_ Hc] _]. exact Hc.
  - destruct e as [|c t]; [reflexivity|].
    apply Forall_cons in H as [[_ Hc] _]. exact Hc.
Qed.

(** With the scramble option, write mode reads [self.scramblers] with [self]
    undefined before anything is encoded or assigned. *)
Lemma scrambled_write_raises utc name value opts :
  scramble_key (scramble opts) <> None ->
  cookie_write utc cookie_local_at_entry name value opts = Err TypeError.
Proof.
  intros Hs. rewrite cookie_write_unfold.
  destruct (scramble_key (scramble opts)); [reflexivity|contradiction].
Qed.

(** C6 (the code at the failing input). With a truthy scramble option,
    [true] or any name, a write does not fall back to the default
    algorithm: the test [!self.scramblers[options.scramble]] raises a
    TypeError, [self] being undefined inside the accessor, although the
    default [rot13n] is registered on the function object.  The call fails
    for every value, a deletion included, and nothing is assigned; so do
    [deleteCookie] and [setJson]. *)
Theorem scrambled_write_raises_type_error
    (utc : Z -> jsstring) (stringify : json -> jsstring)
    (self : registry) (doc name : jsstring) (value : jsval)
    (oValue : json) (opts : options) :
  value <> JUndefined ->
  scramble_key (scramble opts) <> None ->
  set utc self doc name value opts = Err TypeError
  /\ cookie utc self doc name value opts = Err TypeError
  /\ deleteCookie utc self doc name opts = Err TypeError
  /\ setJson utc stringify self doc name oValue opts = Err TypeError.
Proof.
  intros Hv Hs.
  assert (forall v, cookie utc self doc name (JString v) opts = Err TypeError)
    as Hstr.
  { intros v. unfold cookie. cbv zeta.
    rewrite (scrambled_write_raises utc name v opts Hs). reflexivity. }
  assert (cookie utc self doc name JNull opts = Err TypeError) as Hnull.
  { unfold cookie. cbv zeta.
    rewrite scrambled_write_raises by exact Hs. reflexivity. }
  assert (cookie utc self doc name value opts = Err TypeError) as Hc.
  { destruct value as [| |v]; [contradiction|exact Hnull|apply Hstr]. }
  split; [exact Hc|]. split; [exact Hc|]. split.
  - unfold deleteCookie, cookie. cbv zeta.
    rewrite scrambled_write_raises by exact Hs. reflexivity.
  - unfold setJson. apply Hstr.
Qed.

Lemma scrambled_write_raises_type_error_witness :
  scramblers initial_registry !! scramblerDefault initial_registry
  = Some rot13n_scrambler
  /\ set (fun _ => []) initial_registry [] (lit "a") (JString (lit "super"))
       scramble_true = Err TypeError
  /\ set (fun _ => []) initial_registry [] (lit "a") (JString (lit "super"))
       (scramble_with (lit "nope")) = Err TypeError.
Proof.
  split; [reflexivity|]. split.
  - apply (scrambled_write_raises_type_error (fun _ => []) (fun _ => [])
             initial_registry [] (lit "a") (JString (lit "super"))
             JsonNull scramble_true); discriminate.
  - apply (scrambled_write_raises_type_error (fun _ => []) (fun _ => [])
             initial_registry [] (lit "a") (JString (lit "super"))
             JsonNull (scramble_with (lit "nope"))); discriminate.
Defined.

(** X4. A write that succeeds is an unscrambled one, and what it returns is
    what a later plain read gives back.  When [set] on a string returns
    [stored] and assigns [text], the scramble option was not set, [stored]
    is the value as given, and [text] is [name=], the transport encoding of
    the value and the attributes; the encoding holds no semicolon and no
    white space at its end; and whenever the lookup of [name] in the cookie
    text finds that encoding, [get] without options returns the value and
    [exists] is true. *)
Theorem write_then_plain_read
    (utc : Z -> jsstring) (self : registry) (name value : jsstring)
    (opts : options) (stored text encoded doc0 doc : jsstring) :
  set utc self doc0 name (JString value) opts = Ok (JString stored, Some text) ->
  is_string value ->
  encodeValue stored = Ok encoded ->
  find_cookie name (split_semicolon doc) = Some encoded ->
  scramble_key (scramble opts) = None
  /\ stored = value
  /\ text = name ++ lit "=" ++ encoded ++ attributes utc opts
  /\ semicolon_free encoded
  /\ ends_white encoded = false
  /\ get utc self doc name no_options = Ok stored
  /\ cookie_exists utc self doc name = Ok true.
Proof.
  intros Hw Hs He Hf. unfold set, cookie in Hw. cbv zeta in Hw.
  destruct (scramble_key (scramble opts)) as [key|] eqn:Hk.
  { rewrite scrambled_write_raises in Hw by (rewrite Hk; discriminate).
    discriminate. }
  rewrite cookie_write_unfold, Hk in Hw.
  destruct (encodeValue value) as [encoded'|] eqn:He'; [|discriminate].
  injection Hw as Hst Htx. subst stored.
  rewrite He in He'. injection He' as He'. subst encoded'.
  destruct (encodeValue_decodes value encoded Hs He) as [Hd Ha].
  destruct (transport_text_fits_pair encoded Ha) as (Hsemi & Hend & _).
  split; [reflexivity|]. split; [reflexivity|].
  split; [symmetry; exact Htx|]. repeat split; try assumption.
  - rewrite (get_located utc self doc name encoded Hf). exact Hd.
  - rewrite cookie_exists_spec, Hf, Hd. reflexivity.
Qed.

Lemma write_then_plain_read_witness :
  get (fun _ => []) initial_registry (lit "b=1; a=Secret%20123")
    (lit "a") no_options = Ok (lit "Secret 123").
Proof.
  apply (write_then_plain_read (fun _ => []) initial_registry (lit "a")
           (lit "Secret 123") no_options (lit "Secret 123")
           (lit "a=Secret%20123; path=/") (lit "Secret%20123") []
           (lit "b=1; a=Secret%20123")).
  - reflexivity.
  - repeat constructor; lia.
  - reflexivity.
  - reflexivity.
Defined.

(** X5. Without the scramble option, writing a string succeeds exactly when
    the string is well formed: then the value is returned as given and the
    text assigned is [name=], its transport encoding and the attributes;
    on a string with an unpaired surrogate the call raises a URIError and
    assigns nothing. *)
Theorem plain_set_outcome
    (utc : Z -> jsstring) (self : registry) (doc name value : jsstring)
    (opts : options) :
  is_string value ->
  scramble_key (scramble opts) = None ->
  (isWellFormed value = true
   /\ exists encoded,
        encodeValue value = Ok encoded
        /\ set utc self doc name (JString value) opts
           = Ok (JString value,
                 Some (name ++ lit "=" ++ encoded ++ attributes utc opts)))
  \/ (isWellFormed value = false
      /\ set utc self doc name (JString value) opts = Err URIError).
Proof.
  intros Hs Hk. unfold set, cookie. cbv zeta. rewrite cookie_write_unfold, Hk.
  destruct (encodeValue value) as [encoded|e] eqn:He.
  - left. split; [apply (encodeValue_wf value encoded Hs He)|].
    exists encoded. auto.
  - right. apply encodeValue_error in He as Hu. subst e. split; [|reflexivity].
    destruct (isWellFormed value) eqn:Hwf; [|reflexivity].
    destruct (round_trip_well_formed value Hwf) as (e' & He' & _).
    rewrite He in He'. discriminate.
Qed.

Lemma plain_set_outcome_witness :
  set (fun _ => []) initial_registry [] (lit "a") (JString [0x61; 0xDC00])
    no_options = Err URIError.
Proof.
  destruct (plain_set_outcome (fun _ => []) initial_registry [] (lit "a")
              [0x61; 0xDC00] no_options) as [[Hwf _]|[_ H]].
  - repeat constructor; lia.
  - reflexivity.
  - discriminate Hwf.
  - exact H.
Defined.

(** ** The built-in algorithms keep strings storable *)

Lemma isWellFormed_map g s :
  (forall c, g c = c \/ (0 <= c < 128 /\ 0 <= g c < 128)) ->
  isWellFormed (map g s) = isWellFormed s.
Proof.
  intros Hg.
  assert (forall c, is_trail_surrogate (g c) = is_trail_surrogate c
                    /\ is_lead_surrogate (g c) = is_lead_surrogate c
                    /\ (0 <=? g c) && (g c <? 65536)
                       = (0 <=? c) && (c <? 65536)) as Hsame.
  { intros c. destruct (Hg c) as [->|[Hc Hgc]]; [auto|].
    unfold is_trail_surrogate, is_lead_surrogate.
    repeat split.
    - replace ((56320 <=? g c) && (g c <=? 57343)) with false
        by (symmetry; bprop; lia).
      symmetry; bprop; lia.
    - replace ((55296 <=? g c) && (g c <=? 56319)) with false
        by (symmetry; bprop; lia).
      symmetry; bprop; lia.
    - replace ((0 <=? g c) && (g c <? 65536)) with true
        by (symmetry; bprop; lia).
      symmetry; bprop; lia. }
  assert (forall n s, (length s <= n)%nat ->
                      isWellFormed (map g s) = isWellFormed s) as Hn;
    [|apply (Hn (length s)); lia].
  clear s. induction n as [|n IH]; intros s Hlen.
  - destruct s; [reflexivity|simpl in Hlen; lia].
  - destruct s as [|c t]; [reflexivity|]. simpl in Hlen.
    cbn [map isWellFormed].
    destruct (Hsame c) as (-> & -> & ->).
    destruct t as [|d t'].
    + reflexivity.
    + cbn [map]. destruct (Hsame d) as (Hd & _ & _). rewrite Hd.
      simpl in Hlen. rewrite (IH t') by lia.
      change (g d :: map g t') with (map g (d :: t')).
      rewrite (IH (d :: t')) by (simpl; lia). reflexivity.
Qed.

Lemma rot13_code_ascii c :
  rot13_code c = c \/ (0 <= c < 128 /\ 0 <= rot13_code c < 128).
Proof.
  unfold rot13_code. destruct (is_ascii_letter c) eqn:E; [right|left; reflexivity].
  unfold is_ascii_letter in E. bprop_in E. case_if; lia.
Qed.

Lemma rot5_code_ascii c :
  rot5_code c = c \/ (0 <= c < 128 /\ 0 <= rot5_code c < 128).
Proof.
  unfold rot5_code. destruct (is_ascii_digit c) eqn:E; [right|left; reflexivity].
  unfold is_ascii_digit in E. bprop_in E. case_if; lia.
Qed.

(** X8. The two rotations keep a string storable: [rot13] and [rot5] return
    a string of the same length, and the result is well formed exactly when
    the input is, so scrambling never turns a value the transport encoding
    accepts into one it rejects. *)
Theorem rotations_preserve_well_formedness (s : jsstring) :
  length (rot13 (JString s)) = length s
  /\ isWellFormed (rot13 (JString s)) = isWellFormed s
  /\ exists t,
       rot5 (JString s) = Ok t
       /\ length t = length s
       /\ isWellFormed t = isWellFormed s.
Proof.
  rewrite rot13_map, rot5_map, length_map.
  split; [reflexivity|].
  split; [apply isWellFormed_map, rot13_code_ascii|].
  eexists. split; [reflexivity|]. rewrite length_map.
  split; [reflexivity|apply isWellFormed_map, rot5_code_ascii].
Qed.

(** X11. Deleting without the scramble option never fails, whatever the
    name and the options: [deleteCookie] behaves as the accessor called
    with [null], ignores the [expires] the caller passes, returns the empty
    string and assigns [name=] with an expiry one day in the past and the
    caller's path, domain and secure attributes. *)
Theorem delete_outcome
    (utc : Z -> jsstring) (self : registry) (doc name : jsstring)
    (opts : options) (e : expires_option) :
  scramble_key (scramble opts) = None ->
  deleteCookie utc self doc name opts
  = Ok (JString [],
        Some (name ++ lit "=" ++ lit "; expires=" ++ utc (-1)
                   ++ attributes utc (with_expires ExpiresAbsent opts)))
  /\ deleteCookie utc self doc name opts = cookie utc self doc name JNull opts
  /\ deleteCookie utc self doc name (with_expires e opts)
     = deleteCookie utc self doc name opts.
Proof.
  intros Hk. split; [|split; reflexivity].
  unfold deleteCookie, cookie. cbv zeta. rewrite cookie_write_unfold.
  cbn [scramble]. rewrite Hk. reflexivity.
Qed.

Lemma delete_outcome_witness :
  deleteCookie (fun _ => lit "Thu, 01 Jan 1970 00:00:00 GMT") initial_registry
    (lit "a=1") (lit "a")
    {| expires := ExpiresDays 7; path := Some (lit "/app"); domain := None;
       secure := true; scramble := ScrambleAbsent |}
  = Ok (JString [],
        Some (lit "a=; expires=Thu, 01 Jan 1970 00:00:00 GMT; path=/app; secure")).
Proof.
  apply (delete_outcome (fun _ => lit "Thu, 01 Jan 1970 00:00:00 GMT")
           initial_registry (lit "a=1") (lit "a")
           {| expires := ExpiresDays 7; path := Some (lit "/app");
              domain := None; secure := true; scramble := ScrambleAbsent |}
           ExpiresAbsent).
  reflexivity.
Defined.

(** ** More on the transport codec *)

(** X12. [decodeValue] leaves a text without [%] as it is: a value stored by
    other code without percent escapes is read back unchanged. *)
Theorem decodeValue_without_percent (s : jsstring) :
  Forall (fun c => c <> PERCENT) s -> decodeValue s = Ok s.
Proof.
  unfold decodeValue. induction 1 as [|c s Hc _ IH]; [reflexivity|].
  rewrite decodeURIComponent_literal by exact Hc. rewrite IH. reflexivity.
Qed.

Lemma decodeValue_without_percent_witness :
  decodeValue (lit "{a:[1,2]}; b=c d") = Ok (lit "{a:[1,2]}; b=c d").
Proof.
  apply (decodeValue_without_percent (lit "{a:[1,2]}; b=c d")).
  repeat constructor; discriminate.
Defined.

Lemma restored_octet_literal c :
  is_restored c = true -> restored_octet c = [c] /\ escape_code_point c = percent_octet c.
Proof.
  unfold is_restored. intros H. bprop_in H.
  destruct H as [[[[->| ->]| ->]| ->]| ->]; split; reflexivity.
Qed.

(** X13. [encodeValue] leaves a text made of unreserved characters (letters,
    digits, [- _ . ! ~ * ' ( )]) and of [{ } : [ ]] as it is. *)
Theorem encodeValue_literal_text (x : jsstring) :
  Forall (fun c => is_uri_unreserved c || is_restored c = true) x ->
  encodeValue x = Ok x.
Proof.
  intros H. unfold encodeValue.
  assert (exists e, encodeURIComponent x = Ok e /\ restore_allowed e = Ok x)
    as (e & -> & He); [|exact He].
  induction H as [|c x Hc _ (e & He & Hr)]; [exists []; auto|].
  assert (0 <= c < 128) as Hrange.
  { apply orb_true_iff in Hc as [Hc|Hc].
    - unfold is_uri_unreserved, is_ascii_letter, is_ascii_digit in Hc.
      cbn [lit String.list_ascii_of_string map existsb] in Hc.
      bprop_in Hc. cbn in Hc. lia.
    - unfold is_restored in Hc. bprop_in Hc. lia. }
  cbn [encodeURIComponent]. rewrite He.
  replace (is_trail_surrogate c) with false
    by (unfold is_trail_surrogate; symmetry; bprop; lia).
  replace (is_lead_surrogate c) with false
    by (unfold is_lead_surrogate; symmetry; bprop; lia).
  destruct (is_uri_unreserved c) eqn:Hu.
  - exists (c :: e). split; [reflexivity|].
    rewrite restore_allowed_literal by (apply unreserved_not_percent, Hu).
    rewrite Hr. reflexivity.
  - cbn [orb] in Hc. destruct (restored_octet_literal c Hc) as [Hro Hesc].
    exists (escape_code_point c ++ e). split; [reflexivity|].
    rewrite Hesc, restore_percent_octet, Hr, Hro by lia. reflexivity.
Qed.

Lemma encodeValue_literal_text_witness :
  encodeValue (lit "{a:[1]}") = Ok (lit "{a:[1]}").
Proof.
  apply (encodeValue_literal_text (lit "{a:[1]}")).
  repeat constructor.
Defined.

Lemma restored_octets_length bs :
  (length bs <= length (flat_map restored_octet bs) <= 3 * length bs)%nat.
Proof.
  induction bs as [|b bs IH]; [simpl; lia|].
  cbn [flat_map]. rewrite length_app. cbn [length].
  assert (1 <= length (restored_octet b) <= 3)%nat.
  { unfold restored_octet. case_bool_decide; simpl; lia. }
  lia.
Qed.

Lemma utf8_octets_length cp :
  (1 <= length (utf8_octets cp) <= 4)%nat
  /\ (cp < 0x10000 -> (length (utf8_octets cp) <= 3)%nat).
Proof. unfold utf8_octets. repeat case_if; simpl; lia. Qed.

Lemma encodeValue_length_wf s :
  isWellFormed s = true ->
  exists e v,
    encodeURIComponent s = Ok e /\ restore_allowed e = Ok v
    /\ (length s <= length v <= 9 * length s)%nat.
Proof.
  revert s. apply isWellFormed_ind.
  - exists [], []. repeat split; simpl; lia.
  - intros c t Hc Hl Ht (e & v & He & Hr & Hlen).
    cbn [encodeURIComponent]. rewrite Ht, Hl, He.
    destruct (is_uri_unreserved c) eqn:Hu.
    + exists (c :: e), (c :: v).
      rewrite restore_allowed_literal, Hr by (apply unreserved_not_percent, Hu).
      repeat split; simpl; lia.
    + exists (escape_code_point c ++ e),
        (flat_map restored_octet (utf8_octets c) ++ v).
      unfold escape_code_point.
      rewrite restore_escaped_octets, Hr by (apply utf8_octets_range; lia).
      pose proof (restored_octets_length (utf8_octets c)).
      destruct (utf8_octets_length c) as [? Hthree].
      specialize (Hthree ltac:(lia)).
      repeat split; rewrite length_app; simpl; lia.
  - intros c d t Hc Hd (e & v & He & Hr & Hlen).
    cbn [encodeURIComponent]. rewrite Hd, He.
    replace (is_trail_surrogate c) with false; [rewrite Hc|].
    2: { unfold is_lead_surrogate, is_trail_surrogate in *. bprop_in Hc.
         symmetry. bprop. lia. }
    pose proof (pair_code_point_range c d Hc Hd) as Hrange.
    exists (escape_code_point (pair_code_point c d) ++ e),
      (flat_map restored_octet (utf8_octets (pair_code_point c d)) ++ v).
    unfold escape_code_point.
    rewrite restore_escaped_octets, Hr by (apply utf8_octets_range; lia).
    pose proof (restored_octets_length (utf8_octets (pair_code_point c d))).
    assert (length (utf8_octets (pair_code_point c d)) = 4%nat).
    { unfold utf8_octets. repeat case_if; try lia; reflexivity. }
    repeat split; rewrite length_app; simpl; lia.
Qed.

(** X14. The transport encoding of a string is at least as long as the
    string and at most nine times as long. *)
Theorem encodeValue_length (x e : jsstring) :
  is_string x ->
  encodeValue x = Ok e ->
  (length x <= length e <= 9 * length x)%nat.
Proof.
  intros Hx He. pose proof (encodeValue_wf x e Hx He) as Hwf.
  destruct (encodeValue_length_wf x Hwf) as (r & v & Hr & Hv & Hlen).
  unfold encodeValue in He. rewrite Hr, Hv in He. injection He as <-.
  exact Hlen.
Qed.

Lemma encodeValue_length_witness :
  (length [0x20AC; 0x41] <= length (lit "%E2%82%ACA") <= 9 * length [0x20AC; 0x41])%nat.
Proof.
  apply (encodeValue_length [0x20AC; 0x41] (lit "%E2%82%ACA")).
  - repeat constructor; lia.
  - reflexivity.
Defined.

(** ** JSON values *)

(** X15. A JSON value written with [setJson] and read with [getJson] comes
    back as it was, without the scramble option: when [JSON.parse] undoes
    [JSON.stringify] on the value and the text is a string the transport
    encoding accepts, [setJson] returns that text and assigns [name=], its
    encoding and the attributes, and [getJson] on a cookie text where the
    lookup finds the encoding returns the value. *)
Theorem json_round_trip
    (utc : Z -> jsstring) (parse : jsstring -> option json)
    (stringify : json -> jsstring) (self : registry)
    (doc0 doc name encoded : jsstring) (oValue : json) (opts : options) :
  parse (stringify oValue) = Some oValue ->
  is_string (stringify oValue) ->
  encodeValue (stringify oValue) = Ok encoded ->
  scramble_key (scramble opts) = None ->
  find_cookie name (split_semicolon doc) = Some encoded ->
  setJson utc stringify self doc0 name oValue opts
  = Ok (JString (stringify oValue),
        Some (name ++ lit "=" ++ encoded ++ attributes utc opts))
  /\ getJson utc parse self doc name no_options = Ok oValue.
Proof.
  intros Hp Hs He Hk Hf. split.
  - unfold setJson, cookie. cbv zeta.
    rewrite cookie_write_unfold, Hk, He. reflexivity.
  - destruct (encodeValue_decodes _ _ Hs He) as [Hd _].
    unfold getJson, cookie. cbv zeta.
    rewrite (cookie_read_located _ doc name no_options encoded Hf), Hd.
    cbn [scramble_key scramble no_options]. rewrite Hp. reflexivity.
Qed.

Lemma json_round_trip_witness :
  getJson (fun _ => [])
    (fun s => if bool_decide (s = lit "{" ++ [34] ++ lit "n" ++ [34] ++ lit ":1}")
              then Some (JsonObject [(lit "n", JsonNumber (lit "1"))])
              else None)
    initial_registry (lit "u={%22n%22:1}") (lit "u") no_options
  = Ok (JsonObject [(lit "n", JsonNumber (lit "1"))]).
Proof.
  apply (json_round_trip (fun _ => [])
           (fun s => if bool_decide
                          (s = lit "{" ++ [34] ++ lit "n" ++ [34] ++ lit ":1}")
                     then Some (JsonObject [(lit "n", JsonNumber (lit "1"))])
                     else None)
           (fun _ => lit "{" ++ [34] ++ lit "n" ++ [34] ++ lit ":1}")
           initial_registry [] (lit "u={%22n%22:1}") (lit "u")
           (lit "{%22n%22:1}")
           (JsonObject [(lit "n", JsonNumber (lit "1"))]) no_options).
  - reflexivity.
  - repeat constructor; lia.
  - reflexivity.
  - reflexivity.
  - reflexivity.
Defined.

(** ** Reads that find nothing or fail *)

Lemma first_separator_unique (x : Z) a b k1 k2 :
  Forall (fun c => c <> x) a -> Forall (fun c => c <> x) b ->
  a ++ x :: k1 = b ++ x :: k2 -> a = b.
Proof.
  intros Ha. revert b. induction Ha as [|c a Hc _ IH]; intros b Hb H.
  - destruct b as [|d b]; [reflexivity|].
    apply Forall_cons in Hb as [Hd _]. injection H as H _. congruence.
  - destruct b as [|d b].
    + injection H as H _. congruence.
    + apply Forall_cons in Hb as [_ Hb]. injection H as -> H.
      f_equal. apply (IH b Hb H).
Qed.

Lemma trim_prefix s : starts_white s = false -> trim s `prefix_of` s.
Proof.
  intros Hs. destruct (trim_decompose s) as (lead & trail & H & Hl & _).
  destruct lead as [|c lead].
  - exists trail. exact H.
  - rewrite H in Hs. cbn in Hs, Hl. rewrite Hs in Hl. discriminate.
Qed.

Lemma other_name_not_named name n v :
  n <> name -> starts_white n = false ->
  Forall (fun c => c <> 61) n -> Forall (fun c => c <> 61) name ->
  ~ names name (pair_text (n, v)).
Proof.
  intros Hne Hw Hn Hname [k Hk]. unfold pair_text in *. cbn [fst snd] in *.
  destruct (trim_prefix (n ++ lit "=" ++ v)) as [k' Hk'].
  { destruct n; [reflexivity|exact Hw]. }
  rewrite Hk, <- !app_assoc in Hk'.
  apply Hne. symmetry.
  apply (first_separator_unique 61 name n (k ++ k') v Hname Hn).
  symmetry. exact Hk'.
Qed.

(** X16. Lookup is by exact name.  In a cookie text of [name=value] pairs
    joined by ["; "], none of whose names is the requested one (names
    without [=], not starting with white space; pairs without semicolon),
    nothing is found: [get] returns the empty string and [exists] false,
    whatever the options, even if the requested name is the beginning or
    the end of a stored name. *)
Theorem get_absent_from_jar
    (utc : Z -> jsstring) (self : registry) (name : jsstring)
    (opts : options) (pairs : list (jsstring * jsstring)) :
  Forall (fun c => c <> 61) name ->
  Forall (fun p => fst p <> name /\ starts_white (fst p) = false
                   /\ Forall (fun c => c <> 61) (fst p)
                   /\ semicolon_free (pair_text p)) pairs ->
  get utc self (cookie_jar (map pair_text pairs)) name opts = Ok []
  /\ cookie_exists utc self (cookie_jar (map pair_text pairs)) name = Ok false.
Proof.
  intros Hname Hpairs.
  assert (find_cookie name (split_semicolon (cookie_jar (map pair_text pairs)))
          = None) as Hf.
  { rewrite find_cookie_jar.
    - apply find_cookie_None. rewrite Exists_exists.
      intros (piece & Hin & Hnamed). apply list_elem_of_In in Hin.
      apply in_map_iff in Hin as ([n v] & <- & Hin).
      rewrite Forall_forall in Hpairs.
      destruct (Hpairs (n, v)) as (Hne & Hw & Hn & _);
        [apply list_elem_of_In, Hin|].
      apply (other_name_not_named name n v Hne Hw Hn Hname Hnamed).
    - apply Forall_map. eapply Forall_impl; [exact Hpairs|].
      intros p (_ & _ & _ & H). exact H. }
  split.
  - unfold get, cookie. cbv zeta.
    rewrite (cookie_read_missing _ _ name opts Hf). reflexivity.
  - rewrite cookie_exists_spec, Hf. reflexivity.
Qed.

Lemma get_absent_from_jar_witness :
  get (fun _ => []) initial_registry (lit "ab=1; ba=2; b=a=3") (lit "a")
    scramble_true = Ok []
  /\ cookie_exists (fun _ => []) initial_registry (lit "ab=1; ba=2; b=a=3")
       (lit "a") = Ok false.
Proof.
  apply (get_absent_from_jar (fun _ => []) initial_registry (lit "a")
           scramble_true
           [(lit "ab", lit "1"); (lit "ba", lit "2"); (lit "b", lit "a=3")]).
  - repeat constructor; discriminate.
  - repeat constructor; discriminate.
Defined.

(** X17. A read without the scramble option can fail in one way only: a
    URIError from the transport decoding of the value found.  This holds
    for [get], [getJson] and [exists]. *)
Theorem plain_read_errors
    (utc : Z -> jsstring) (parse : jsstring -> option json)
    (self : registry) (doc name : jsstring) (e : error) :
  get utc self doc name no_options = Err e
  \/ getJson utc parse self doc name no_options = Err e
  \/ cookie_exists utc self doc name = Err e ->
  e = URIError.
Proof.
  unfold get, getJson. rewrite cookie_exists_spec. unfold cookie. cbv zeta.
  destruct (find_cookie name (split_semicolon doc)) as [raw|] eqn:Hf.
  - rewrite (cookie_read_located _ doc name no_options raw Hf).
    cbn [scramble_key scramble no_options].
    destruct (decodeValue raw) as [v|e'] eqn:Hd.
    + intros [H|[H|H]]; try discriminate.
      destruct (parse v); discriminate.
    + apply decodeValue_error in Hd as ->.
      intros [H|[H|H]]; injection H as <-; reflexivity.
  - rewrite (cookie_read_missing _ doc name no_options Hf).
    intros [H|[H|H]]; discriminate.
Qed.

Lemma plain_read_errors_witness : URIError = URIError.
Proof.
  apply (plain_read_errors (fun _ => []) (fun _ => None) initial_registry
           (lit "a=%E9") (lit "a") URIError).
  left. reflexivity.
Defined.

(** ** The two rotations together *)

(** X18. The two rotations commute: rotating the digits after the letters,
    as [rot13n] does, gives the same text as rotating the letters after the
    digits, and never fails on a string. *)
Theorem rotations_commute (s : jsstring) :
  rot5 (JString (rot13 (JString s)))
  = (do t <- rot5 (JString s); Ok (rot13 (JString t)))
  /\ exists r, rot5 (JString (rot13 (JString s))) = Ok r.
Proof.
  rewrite rot13n_map, rot5_map. cbv beta iota. rewrite rot13_map, map_map.
  split; [|eexists; reflexivity].
  f_equal. apply map_ext. intros c. apply rot5_rot13_code_commute.
Qed.

(** ** [get] with the scramble option *)

(** X19. With a truthy scramble option [get] never returns a stored value:
    it returns the empty string when no cookie of the name is found, raises
    the URIError of the transport decoding when the value found does not
    decode, and raises a TypeError in every other case, whatever the value,
    its tag and the registry. *)
Theorem scrambled_get_outcome
    (utc : Z -> jsstring) (self : registry) (doc name : jsstring)
    (opts : options) :
  scramble_key (scramble opts) <> None ->
  get utc self doc name opts
  = match find_cookie name (split_semicolon doc) with
    | None => Ok []
    | Some raw => do _ <- decodeValue raw; Err TypeError
    end
  /\ (get utc self doc name opts = Ok []
      \/ get utc self doc name opts = Err URIError
      \/ get utc self doc name opts = Err TypeError).
Proof.
  intros Hs. unfold get, cookie. cbv zeta.
  destruct (find_cookie name (split_semicolon doc)) as [raw|] eqn:Hf.
  - destruct (decodeValue raw) as [v|e] eqn:Hd.
    + rewrite (scrambled_read_located doc name opts raw v Hf Hd Hs). auto.
    + rewrite (cookie_read_located _ doc name opts raw Hf), Hd.
      apply decodeValue_error in Hd as ->. auto.
  - rewrite (cookie_read_missing _ doc name opts Hf). auto.
Qed.

Lemma scrambled_get_outcome_witness :
  get (fun _ => []) initial_registry (lit "a=[rot13n]Frperg678") (lit "a")
    scramble_true = Err TypeError.
Proof.
  apply (scrambled_get_outcome (fun _ => []) initial_registry
           (lit "a=[rot13n]Frperg678") (lit "a") scramble_true).
  discriminate.
Defined.
